(** * build_readme.py: marker substitution, fallback statistics, release shaping

    A shallow embedding of [build_readme.py] and of the parts of Python's
    [re] and [str] it relies on.

    Text.  A Python [str] is a sequence of code points; here it is a list of
    [ascii], that is, of code points U+0000..U+00FF.  On that range the
    classes of [re] are: [\s] = 9..13, 28..32, 133, 160 (the same set
    [str.strip] removes), [\d] = '0'..'9', and [.] under [re.DOTALL] = every
    character.

    Exceptions.  A computation that can raise returns a [result]. *)

From Stdlib Require Import Ascii String Bool Arith ZArith Lia List.
From Stdlib Require Import Permutation Sorted.
Import ListNotations.

Set Implicit Arguments.

Open Scope string_scope.
Open Scope nat_scope.
Open Scope list_scope.

(** ** Text *)

Definition str := list ascii.

Definition of_string (s : string) : str := list_ascii_of_string s.
Coercion of_string : string >-> str.

Definition code (a : ascii) : nat := nat_of_ascii a.

Definition str_eqb (a b : str) : bool :=
  if list_eq_dec ascii_dec a b then true else false.

(** [\s] of [re] on a [str] pattern, and the characters [str.strip] removes. *)
Definition is_space (a : ascii) : bool :=
  let n := code a in
  ((9 <=? n) && (n <=? 13)) || ((28 <=? n) && (n <=? 32))
  || (n =? 133) || (n =? 160).

(** [\d] of [re], on code points below 256. *)
Definition is_digit (a : ascii) : bool :=
  let n := code a in (48 <=? n) && (n <=? 57).

(** [.] under [re.DOTALL]. *)
Definition any_char (_ : ascii) : bool := true.

Definition is_octdigit (a : ascii) : bool :=
  let n := code a in (48 <=? n) && (n <=? 55).

Definition is_ascii_letter (a : ascii) : bool :=
  let n := code a in
  ((65 <=? n) && (n <=? 90)) || ((97 <=? n) && (n <=? 122)).

Definition digit_val (a : ascii) : nat := code a - 48.

(** ** Exceptions *)

Inductive exn : Type :=
| re_error      (* re.error: bad pattern or bad replacement template *)
| IndexError    (* unknown group name in a replacement template *)
| ValueError    (* int() of a text that is not a number *)
| ApiError (n : nat).  (* any exception raised by a call to the remote API *)

Inductive result (A : Type) : Type :=
| Ok (a : A)
| Raise (e : exn).
Arguments Ok {A} a.
Arguments Raise {A} e.

Definition bind {A B} (x : result A) (f : A -> result B) : result B :=
  match x with
  | Ok a => f a
  | Raise e => Raise e
  end.

Notation "x <- e1 ;; e2" := (bind e1 (fun x => e2))
  (at level 61, e1 at next level, right associativity).

(** ** The backtracking matcher of [re]

    Only the constructs the two patterns of the program use. *)

Module Re.

Inductive regex : Type :=
| Eps
| Lit (a : ascii)                       (* a literal character *)
| Cls (p : ascii -> bool)               (* \s, \d, . *)
| Cat (r1 r2 : regex)
| Rep (greedy : bool) (lo : nat) (hi : option nat) (r : regex)
                     (* r{lo,hi}; the star, greedy or lazy, has lo = 0, hi = None *)
| Grp (i : nat) (r : regex).            (* capturing group number i *)

(** Captured groups, latest binding first. *)
Definition caps := list (nat * str).

Fixpoint group (i : nat) (c : caps) : option str :=
  match c with
  | [] => None
  | (j, x) :: c' => if j =? i then Some x else group i c'
  end.

Definition or_else {A} (x y : option A) : option A :=
  match x with
  | Some _ => x
  | None => y
  end.

Section Matcher.
Variable A : Type.

(** What is tried after a piece of the pattern has matched: the groups so
    far and the rest of the text. *)
Definition cont := caps -> str -> option A.

(** [r{lo,hi}] around a body: a greedy repeat tries one more iteration
    first and then the rest of the pattern, a lazy one the other way
    round.  Like the engine it does not repeat an iteration that consumed
    nothing, so there are at most [length s] iterations and the fuel [run]
    gives never runs out. *)
Fixpoint rep (body : cont -> cont) (greedy : bool) (k : cont)
         (fuel lo : nat) (hi : option nat) (c : caps) (s : str) : option A :=
  let stop := match lo with 0 => k c s | S _ => None end in
  let more :=
    match fuel, hi with
    | 0, _ => None
    | _, Some 0 => None
    | S fuel', _ =>
        body (fun c' s' =>
                if length s' <? length s
                then rep body greedy k fuel' (pred lo) (option_map pred hi) c' s'
                else None) c s
    end in
  if greedy then or_else more stop else or_else stop more.

Fixpoint run (r : regex) (k : cont) (c : caps) (s : str) : option A :=
  match r with
  | Eps => k c s
  | Lit a =>
      match s with
      | x :: s' => if Ascii.eqb x a then k c s' else None
      | [] => None
      end
  | Cls p =>
      match s with
      | x :: s' => if p x then k c s' else None
      | [] => None
      end
  | Cat r1 r2 => run r1 (run r2 k) c s
  | Rep greedy lo hi r1 => rep (run r1) greedy k (S (length s)) lo hi c s
  | Grp i r1 =>
      run r1 (fun c' s' => k ((i, firstn (length s - length s') s) :: c') s') c s
  end.
End Matcher.

(** Two continuations that give the same results. *)
Definition cont_eq {A} (k1 k2 : cont A) : Prop := forall c s, k1 c s = k2 c s.

(** The texts a pattern stands for, without regard to the order in which
    the matcher tries them.  A repeat is unfolded one non-empty iteration at
    a time. *)
Inductive Matches : regex -> str -> Prop :=
| M_eps : Matches Eps []
| M_lit a : Matches (Lit a) [a]
| M_cls (p : ascii -> bool) a : p a = true -> Matches (Cls p) [a]
| M_cat r1 r2 x y :
    Matches r1 x -> Matches r2 y -> Matches (Cat r1 r2) (x ++ y)
| M_grp i r x : Matches r x -> Matches (Grp i r) x
| M_rep_stop g hi r : Matches (Rep g 0 hi r) []
| M_rep_more g lo hi r x y :
    hi <> Some 0 -> x <> [] -> Matches r x ->
    Matches (Rep g (pred lo) (option_map pred hi) r) y ->
    Matches (Rep g lo hi r) (x ++ y).

(** The pattern has a text somewhere in [s]: after [u], before [v]. *)
Definition occurs_at (r : regex) (s u x v : str) : Prop :=
  s = u ++ x ++ v /\ Matches r x.

Definition occurs (r : regex) (s : str) : Prop :=
  exists u x v, occurs_at r s u x v.

(** A match: the text before it, the matched text, its groups, the text after. *)
Record match_ : Type := Match {
  before : str;
  matched : str;
  groups : caps;
  after : str
}.

(** One attempt at the position where [s] starts.  With [must_advance] a
    match that ends where the scan started is refused (the engine sets it
    after an empty match). *)
Definition match_here (r : regex) (must_advance : bool) (s : str)
  : option (caps * str) :=
  run r (fun c s' =>
           if must_advance && (length s' =? length s) then None
           else Some (c, s')) [] s.

(** Leftmost match at or after the current position; [pre] is the text
    already skipped, in reverse. *)
Fixpoint scan (r : regex) (must_advance : bool) (pre : str) (s : str)
  : option match_ :=
  match match_here r must_advance s with
  | Some (c, s') =>
      Some (Match (rev pre) (firstn (length s - length s') s) c s')
  | None =>
      match s with
      | [] => None
      | x :: s' => scan r false (x :: pre) s'
      end
  end.

(** [pattern.search(s)] *)
Definition search (r : regex) (s : str) : option match_ := scan r false [] s.

(** *** Replacement templates *)

Inductive titem : Type :=
| TLit (a : ascii)
| TGroup (i : nat).

Definition escape_of (a : ascii) : option ascii :=
  match code a with
  | 97 => Some (ascii_of_nat 7)     (* \a *)
  | 98 => Some (ascii_of_nat 8)     (* \b *)
  | 102 => Some (ascii_of_nat 12)   (* \f *)
  | 110 => Some (ascii_of_nat 10)   (* \n *)
  | 114 => Some (ascii_of_nat 13)   (* \r *)
  | 116 => Some (ascii_of_nat 9)    (* \t *)
  | 118 => Some (ascii_of_nat 11)   (* \v *)
  | 92 => Some (ascii_of_nat 92)    (* \\ *)
  | _ => None
  end.

(** The name of [\g<name>]: the text up to [>], and what follows it. *)
Fixpoint until_gt (s : str) : option (str * str) :=
  match s with
  | [] => None
  | x :: s' =>
      if code x =? 62 then Some ([], s')
      else match until_gt s' with
           | Some (n, rest) => Some (x :: n, rest)
           | None => None
           end
  end.

Definition decimal (s : str) : nat :=
  fold_left (fun acc a => 10 * acc + digit_val a) s 0.

(** One escape sequence, [s] being the text after the backslash.  Returns
    the item and the text after the sequence. *)
Definition parse_escape (ngroups : nat) (s : str) : result (list titem * str) :=
  match s with
  | [] => Raise re_error                         (* bad escape (end of pattern) *)
  | c :: s1 =>
      if code c =? 103 then                      (* \g<...> *)
        match s1 with
        | lt :: s2 =>
            if code lt =? 60 then
              match until_gt s2 with
              | None => Raise re_error           (* missing >, unterminated name *)
              | Some ([], _) => Raise re_error   (* missing group name *)
              | Some (name, rest) =>
                  if forallb is_digit name then
                    if decimal name <=? ngroups then Ok ([TGroup (decimal name)], rest)
                    else Raise re_error          (* invalid group reference *)
                  else Raise IndexError          (* unknown or bad group name *)
              end
            else Raise re_error                  (* missing < *)
        | [] => Raise re_error
        end
      else if code c =? 48 then                  (* \0, \0o, \0oo *)
        match s1 with
        | d1 :: s2 =>
            if is_octdigit d1 then
              match s2 with
              | d2 :: s3 =>
                  if is_octdigit d2
                  then Ok ([TLit (ascii_of_nat (8 * digit_val d1 + digit_val d2))], s3)
                  else Ok ([TLit (ascii_of_nat (digit_val d1))], s2)
              | [] => Ok ([TLit (ascii_of_nat (digit_val d1))], s2)
              end
            else Ok ([TLit (ascii_of_nat 0)], s1)
        | [] => Ok ([TLit (ascii_of_nat 0)], s1)
        end
      else if is_digit c then                    (* \1..\99, or three octal digits *)
        match s1 with
        | d1 :: s2 =>
            if is_digit d1 then
              match s2 with
              | d2 :: s3 =>
                  if is_octdigit c && is_octdigit d1 && is_octdigit d2 then
                    let v := 64 * digit_val c + 8 * digit_val d1 + digit_val d2 in
                    if v <=? 255 then Ok ([TLit (ascii_of_nat v)], s3)
                    else Raise re_error          (* octal escape out of range *)
                  else
                    let i := 10 * digit_val c + digit_val d1 in
                    if i <=? ngroups then Ok ([TGroup i], s2) else Raise re_error
              | [] =>
                  let i := 10 * digit_val c + digit_val d1 in
                  if i <=? ngroups then Ok ([TGroup i], s2) else Raise re_error
              end
            else
              if digit_val c <=? ngroups then Ok ([TGroup (digit_val c)], s1)
              else Raise re_error                (* invalid group reference *)
        | [] =>
            if digit_val c <=? ngroups then Ok ([TGroup (digit_val c)], s1)
            else Raise re_error
        end
      else
        match escape_of c with
        | Some a => Ok ([TLit a], s1)
        | None =>
            if is_ascii_letter c then Raise re_error   (* bad escape *)
            else Ok ([TLit "\"%char; TLit c], s1)   (* kept with its backslash *)
        end
  end.

(** [parse_template]: the replacement text is read once, before any match
    is looked for, so a bad template raises even when nothing matches. *)
Fixpoint parse_template (ngroups fuel : nat) (s : str) : result (list titem) :=
  match fuel with
  | 0 => Ok []
  | S fuel' =>
      match s with
      | [] => Ok []
      | c :: s' =>
          if code c =? 92 then
            p <- parse_escape ngroups s' ;;
            tl <- parse_template ngroups fuel' (snd p) ;;
            Ok (fst p ++ tl)
          else
            tl <- parse_template ngroups fuel' s' ;;
            Ok (TLit c :: tl)
      end
  end.

Definition template (ngroups : nat) (repl : str) : result (list titem) :=
  parse_template ngroups (length repl) repl.

(** The text a template stands for at a match; a group that took no part in
    the match gives the empty text. *)
Fixpoint expand (tpl : list titem) (mt : match_) : str :=
  match tpl with
  | [] => []
  | TLit a :: tl => a :: expand tl mt
  | TGroup 0 :: tl => matched mt ++ expand tl mt
  | TGroup i :: tl =>
      match group i (groups mt) with
      | Some x => x ++ expand tl mt
      | None => expand tl mt
      end
  end.

(** The loop of [pattern.sub]: every match from left to right, each search
    starting where the last match ended. *)
Fixpoint sub_loop (r : regex) (tpl : list titem) (fuel : nat)
         (must_advance : bool) (s : str) : str :=
  match fuel with
  | 0 => s
  | S fuel' =>
      match scan r must_advance [] s with
      | None => s
      | Some mt =>
          before mt ++ expand tpl mt
          ++ sub_loop r tpl fuel' (length (matched mt) =? 0) (after mt)
      end
  end.

(** [pattern.sub(repl, s)] for a pattern with [ngroups] groups. *)
Definition sub (r : regex) (ngroups : nat) (repl s : str) : result str :=
  tpl <- template ngroups repl ;;
  Ok (sub_loop r tpl (2 * length s + 2) false s).

End Re.

(** ** replace_chunk *)

Import Re.

Definition lit (s : str) : regex := fold_right (fun a r => Cat (Lit a) r) Eps s.

Definition cat_all (rs : list regex) : regex := fold_right Cat Eps rs.

(** [\s*] *)
Definition ws : regex := Rep true 0 None (Cls is_space).

(** The characters with a meaning of their own in a pattern of [re]. *)
Definition is_special (a : ascii) : bool :=
  existsb (Ascii.eqb a) (of_string "\.^$*+?{}[]|()").

(** The source puts the region name into the pattern and into the
    replacement text as it is.  A name free of special characters stands for
    itself in both; the embedding covers those names. *)
Definition marker_plain (marker : str) : bool :=
  forallb (fun a => negb (is_special a)) marker.

(** [<!--\s*NAME\s*WORD\s*-->] *)
Definition marker_re (marker word : str) : list regex :=
  [lit "<!--"; ws; lit marker; ws; lit word; ws; lit "-->"].

(** "<!--\s*{}\s*starts\s*-->.*?<!--\s*{}\s*ends\s*-->" with both fields
    filled by the name, compiled with re.DOTALL *)
Definition chunk_pattern (marker : str) : regex :=
  cat_all (marker_re marker "starts"
           ++ [Rep false 0 None (Cls any_char)]
           ++ marker_re marker "ends").

Definition nl : str := [ascii_of_nat 10].

(** "<!-- {} starts -->{}<!-- {} ends -->".format(marker, chunk, marker) *)
Definition replacement (marker chunk : str) : str :=
  of_string "<!-- " ++ marker ++ of_string " starts -->" ++ chunk
  ++ of_string "<!-- " ++ marker ++ of_string " ends -->".

Inductive outcome : Type :=
| Returns (s : str)
| Raises (e : exn)
| Outside.   (* a region name with characters special to re: not covered *)

(** if not inline: chunk = "\n{}\n".format(chunk) *)
Definition wrapped (chunk : str) (inline : bool) : str :=
  if negb inline then nl ++ chunk ++ nl else chunk.

Definition replace_chunk (content marker chunk : str) (inline : bool) : outcome :=
  if marker_plain marker then
    let chunk := wrapped chunk inline in
    match sub (chunk_pattern marker) 0 (replacement marker chunk) content with
    | Ok s => Returns s
    | Raise e => Raises e
    end
  else Outside.

(** The body of the first region of that name, as the pattern of
    [replace_chunk] delimits it: the same pattern with the part between the
    two markers captured. *)
Definition body_pattern (marker : str) : regex :=
  cat_all (marker_re marker "starts"
           ++ [Grp 1 (Rep false 0 None (Cls any_char))]
           ++ marker_re marker "ends").


(** ** str methods and int *)

Fixpoint is_prefix (p s : str) : bool :=
  match p, s with
  | [], _ => true
  | a :: p', b :: s' => Ascii.eqb a b && is_prefix p' s'
  | _ :: _, [] => false
  end.

(** [s.replace(old, new)] for a non-empty [old]: occurrences from left to
    right, not overlapping.  [skip] counts the characters of an occurrence
    still to be dropped. *)
Fixpoint replace_from (old new : str) (skip : nat) (s : str) : str :=
  match s with
  | [] => []
  | a :: s' =>
      match skip with
      | S n => replace_from old new n s'
      | 0 =>
          if is_prefix old s
          then new ++ replace_from old new (length old - 1) s'
          else a :: replace_from old new 0 s'
      end
  end.

(** [s.replace(old, new)]; an empty [old] matches before every character and
    at the end. *)
Definition py_replace (s old new : str) : str :=
  match old with
  | [] => new ++ flat_map (fun a => a :: new) s
  | _ :: _ => replace_from old new 0 s
  end.

Fixpoint lstrip (s : str) : str :=
  match s with
  | a :: s' => if is_space a then lstrip s' else s
  | [] => []
  end.

(** [s.strip()] *)
Definition strip (s : str) : str := rev (lstrip (rev (lstrip s))).








(** ** extract_current_stats *)

Record Stats : Type := mkStats {
  followers : Z;
  stars : Z;
  forks : Z
}.








(** ** The remote API

    What the program reads through PyGithub.  Listing is paginated and lazy:
    an iteration yields items and can raise in the middle; an attribute of an
    API object is read on demand and the read can raise.  The embedding keeps
    the second for the attributes of a release, which are read inside the
    per-repository [try]. *)

Record datetime : Type := mkDate {
  year : nat;
  month : nat;
  day : nat
}.

Definition two_digits (n : nat) : str :=
  [ascii_of_nat (48 + n / 10 mod 10); ascii_of_nat (48 + n mod 10)].

(** [d.strftime("%Y-%m-%d")], for the four-digit years of the API's
    timestamps *)
Definition strftime_ymd (d : datetime) : str :=
  two_digits (year d / 100) ++ two_digits (year d) ++ of_string "-"
  ++ two_digits (month d) ++ of_string "-" ++ two_digits (day d).

Record Release : Type := mkRelease {
  title : result (option str);
  tag_name : result str;
  published_at : result (option datetime);
  html_url : result str
}.

Record Repo : Type := mkRepo {
  name : str;
  repo_html_url : str;
  repo_description : option str;
  fork : bool;
  stargazers_count : Z;
  forks_count : Z;
  get_releases : result (list Release)      (* list(repo.get_releases()) *)
}.

Record Api : Type := mkApi {
  get_user : result unit;      (* Auth.Token, Github, get_user: all that runs before the loop *)
  get_repos : list Repo;       (* the repositories the iteration yields ... *)
  get_repos_end : option exn;  (* ... and the exception it then raises, if any *)
  user_followers : result Z    (* user.followers *)
}.

(** ** fetch_github_stats *)

(** The loop over the repositories: the two running sums. *)
Fixpoint sum_repos (rs : list Repo) (total_stars total_forks : Z) : Z * Z :=
  match rs with
  | [] => (total_stars, total_forks)
  | repo :: rs' =>
      if negb (fork repo)
      then sum_repos rs' (total_stars + stargazers_count repo)%Z
                         (total_forks + forks_count repo)%Z
      else sum_repos rs' total_stars total_forks
  end.

Definition iteration_end (api : Api) : result unit :=
  match get_repos_end api with
  | Some e => Raise e
  | None => Ok tt
  end.

(** The body of the [try]. *)
Definition stats_try (api : Api) : result Stats :=
  _ <- get_user api ;;
  let totals := sum_repos (get_repos api) 0 0 in
  _ <- iteration_end api ;;
  fo <- user_followers api ;;
  Ok (mkStats fo (fst totals) (snd totals)).

(** [current_stats or {'stars': 0, 'forks': 0, 'followers': 0}]: [None] is
    false, a dict with the three keys is true. *)
Definition or_zeros (current_stats : option Stats) : Stats :=
  match current_stats with
  | Some st => st
  | None => mkStats 0 0 0
  end.

Definition fetch_github_stats (api : Api) (current_stats : option Stats) : Stats :=
  match stats_try api with
  | Ok st => st
  | Raise _ => or_zeros current_stats
  end.

(** ** fetch_releases *)

Record ReleaseRecord : Type := mkRecord {
  repo : str;
  repo_url : str;
  description : str;
  release : str;
  published : str;       (* key "published_at" *)
  url : str
}.

(** release.title.replace(repo.name, "").strip() if release.title else release.tag_name;
    a title that is [None] or empty is false. *)
Definition release_label (r : Repo) (rel : Release) : result str :=
  t <- title rel ;;
  match t with
  | Some (a :: t') => Ok (strip (py_replace (a :: t') (name r) []))
  | _ => tag_name rel
  end.

(** release.published_at.strftime("%Y-%m-%d") if release.published_at else "" *)
Definition release_date (rel : Release) : result str :=
  d <- published_at rel ;;
  match d with
  | Some d' => Ok (strftime_ymd d')
  | None => Ok []
  end.

(** The dict appended for one release; its values are computed in the order
    of the keys. *)
Definition release_record (r : Repo) (rel : Release) : result ReleaseRecord :=
  label <- release_label r rel ;;
  date <- release_date rel ;;
  u <- html_url rel ;;
  Ok (mkRecord (name r) (repo_html_url r)
               (match repo_description r with Some d => d | None => [] end)
               label date u).

(** The inner [for]: each record is appended to [releases] as soon as it is
    built, so an exception leaves the earlier ones in the list. *)
Fixpoint append_releases (r : Repo) (rels : list Release)
         (releases : list ReleaseRecord) : list ReleaseRecord * option exn :=
  match rels with
  | [] => (releases, None)
  | rel :: rels' =>
      match release_record r rel with
      | Ok rec => append_releases r rels' (releases ++ [rec])
      | Raise e => (releases, Some e)
      end
  end.

(** One turn of the outer [for]: the fork test, then the inner [try], whose
    [except] logs and goes on. *)
Definition visit_repo (r : Repo) (releases : list ReleaseRecord)
  : list ReleaseRecord :=
  if fork r then releases
  else
    match get_releases r with
    | Ok repo_releases => fst (append_releases r (firstn 5 repo_releases) releases)
    | Raise _ => releases
    end.

Definition visit_repos (rs : list Repo) (releases : list ReleaseRecord)
  : list ReleaseRecord :=
  fold_left (fun acc r => visit_repo r acc) rs releases.

Definition fetch_releases (api : Api) : list ReleaseRecord :=
  match get_user api with
  | Raise _ => []
  | Ok _ =>
      let releases := visit_repos (get_repos api) [] in
      match get_repos_end api with
      | Some _ => []
      | None => releases
      end
  end.

(** ** The release list of main *)

(** Order of Python [str]: by code point, a proper prefix first. *)
Fixpoint str_ltb (a b : str) : bool :=
  match a, b with
  | _, [] => false
  | [], _ :: _ => true
  | x :: a', y :: b' =>
      (code x <? code y) || ((code x =? code y) && str_ltb a' b')
  end.

(** releases.sort(key=lambda r: r["published_at"], reverse=True): the sort
    is stable, also in reverse, so of two records with the same date the one
    that came first stays first; that fixes the result. *)
Fixpoint insert_desc (x : ReleaseRecord) (l : list ReleaseRecord)
  : list ReleaseRecord :=
  match l with
  | [] => [x]
  | y :: l' =>
      if str_ltb (published x) (published y) then y :: insert_desc x l'
      else x :: l
  end.

Fixpoint sort_desc (l : list ReleaseRecord) : list ReleaseRecord :=
  match l with
  | [] => []
  | x :: l' => insert_desc x (sort_desc l')
  end.

Definition seen (seen_repos : list str) (r : str) : bool :=
  existsb (str_eqb r) seen_repos.

(** The loop that fills [unique_releases]. *)
Fixpoint unique (seen_repos : list str) (releases : list ReleaseRecord)
  : list ReleaseRecord :=
  match releases with
  | [] => []
  | rel :: rest =>
      if seen seen_repos (repo rel) then unique seen_repos rest
      else rel :: unique (repo rel :: seen_repos) rest
  end.

(** The records main renders: unique_releases[:6] *)
Definition shown_releases (releases : list ReleaseRecord) : list ReleaseRecord :=
  firstn 6 (unique [] (sort_desc releases)).

(** ** Conditions on the inputs used in the statements *)

(** [s] has no backslash, so it is a replacement template that stands for
    itself. *)
Definition no_backslash (s : str) : bool :=
  forallb (fun a => negb (code a =? 92)) s.

(** [p in s] *)
Fixpoint contains (p s : str) : bool :=
  is_prefix p s
  || match s with
     | [] => false
     | _ :: s' => contains p s'
     end.

(** A region name that is plain, has no blank and no [<]. *)
Definition marker_word (marker : str) : bool :=
  forallb (fun a => negb (is_special a) && negb (is_space a)
                    && negb (code a =? 60)) marker.

(** The replacement text is one [re] accepts. *)
Definition template_ok (repl : str) : bool :=
  match template 0 repl with
  | Ok _ => true
  | Raise _ => false
  end.



(** A pattern without capturing groups. *)
Fixpoint groupless (r : Re.regex) : bool :=
  match r with
  | Re.Eps | Re.Lit _ | Re.Cls _ => true
  | Re.Cat r1 r2 => groupless r1 && groupless r2
  | Re.Rep _ _ _ r1 => groupless r1
  | Re.Grp _ _ => false
  end.




(** The first character of [s], if there is one, satisfies [Q]. *)
Definition heads (Q : ascii -> Prop) (s : str) : Prop :=
  match s with
  | x :: _ => Q x
  | [] => True
  end.





(** The character [<]. *)
Definition is_lt (a : ascii) : bool := code a =? 60.

(** The blank replace_chunk writes inside a marker. *)
Definition sp : str := of_string " ".

(** The date of [a] is not below the date of [b]. *)
Definition not_older (a b : ReleaseRecord) : Prop :=
  str_ltb (published a) (published b) = false.

(** ** Notions used to state further properties *)

(** The sum of a count over the repositories that are not forks. *)
Definition total (f : Repo -> Z) (rs : list Repo) : Z :=
  fold_right Z.add 0%Z (map f (filter (fun r => negb (fork r)) rs)).

(** The repositories that are not forks. *)
Definition owned (rs : list Repo) : list Repo :=
  filter (fun r => negb (fork r)) rs.




(** The records of a list with a given date, in their order. *)
Definition dated (d : str) (l : list ReleaseRecord) : list ReleaseRecord :=
  filter (fun r => str_eqb (published r) d) l.

(** The different repository names of a list of records. *)
Definition repo_names (l : list ReleaseRecord) : list str :=
  nodup (list_eq_dec ascii_dec) (map repo l).



(** A letter that, after a backslash, is no escape of a replacement
    template: an ASCII letter other than a, b, f, n, r, t, v and g. *)
Definition bad_escape_letter (c : ascii) : bool :=
  is_ascii_letter c && negb (existsb (Ascii.eqb c) (of_string "abfnrtvg")).

(** * Properties *)

(** ** The matcher *)

Module ReFacts.
Import Re.

Section Run.
Variable A : Type.

Lemma rep_ext (b1 b2 : cont A -> cont A) g k1 k2 :
  (forall j1 j2, cont_eq j1 j2 -> cont_eq (b1 j1) (b2 j2)) ->
  cont_eq k1 k2 ->
  forall fuel lo hi, cont_eq (rep b1 g k1 fuel lo hi) (rep b2 g k2 fuel lo hi).
Proof.
  intros Hb Hk fuel.
  induction fuel as [|fuel IH]; intros lo hi c s; simpl.
  - rewrite (Hk c s). reflexivity.
  - rewrite (Hk c s).
    assert (E : forall h,
      b1 (fun c' s' => if length s' <? length s
                       then rep b1 g k1 fuel (pred lo) h c' s' else None) c s
      = b2 (fun c' s' => if length s' <? length s
                         then rep b2 g k2 fuel (pred lo) h c' s' else None) c s).
    { intro h. apply Hb. intros c' s'.
      destruct (length s' <? length s); [apply IH | reflexivity]. }
    destruct hi as [[|h]|]; simpl; try rewrite E; reflexivity.
Qed.

Lemma run_ext (r : regex) :
  forall k1 k2 : cont A, cont_eq k1 k2 -> cont_eq (run r k1) (run r k2).
Proof.
  induction r as [|a|p|r1 IH1 r2 IH2|g lo hi r IH|i r IH];
    intros k1 k2 Hk c s; cbn [run].
  - apply Hk.
  - destruct s as [|x s]; [reflexivity|]. destruct (Ascii.eqb x a); [apply Hk | reflexivity].
  - destruct s as [|x s]; [reflexivity|]. destruct (p x); [apply Hk | reflexivity].
  - apply IH1. intros c' s'. apply IH2, Hk.
  - apply rep_ext; [exact IH | exact Hk].
  - apply IH. intros c' s'. apply Hk.
Qed.

(** The fuel [run] gives is enough: more changes nothing. *)
Lemma rep_fuel (r : regex) g (k : cont A) :
  forall f1 f2 lo hi c s,
    length s < f1 -> length s < f2 ->
    rep (run r) g k f1 lo hi c s = rep (run r) g k f2 lo hi c s.
Proof.
  induction f1 as [|f1 IH]; intros f2 lo hi c s H1 H2; [lia|].
  destruct f2 as [|f2]; [lia|]. simpl.
  assert (E : forall h,
    run r (fun c' s' => if length s' <? length s
                        then rep (run r) g k f1 (pred lo) h c' s' else None) c s
    = run r (fun c' s' => if length s' <? length s
                          then rep (run r) g k f2 (pred lo) h c' s' else None) c s).
  { intro h. apply run_ext. intros c' s'.
    destruct (length s' <? length s) eqn:E; [|reflexivity].
    apply Nat.ltb_lt in E. apply IH; lia. }
  destruct hi as [[|h]|]; simpl; try rewrite E; reflexivity.
Qed.

Lemma or_else_some (x y : option A) a :
  or_else x y = Some a -> x = Some a \/ y = Some a.
Proof. destruct x; simpl; auto. Qed.

Lemma or_else_none (x y : option A) :
  or_else x y = None <-> x = None /\ y = None.
Proof.
  destruct x; simpl; split; intros H; try discriminate; try tauto.
Qed.

Lemma rep_sound (r : regex) g :
  (forall (k : cont A) c s a, run r k c s = Some a ->
     exists x s' c', s = x ++ s' /\ Matches r x /\ k c' s' = Some a
                     /\ (groupless r = true -> c' = c)) ->
  forall fuel lo hi (k : cont A) c s a,
    rep (run r) g k fuel lo hi c s = Some a ->
    exists x s' c', s = x ++ s' /\ Matches (Rep g lo hi r) x /\ k c' s' = Some a
                    /\ (groupless r = true -> c' = c).
Proof.
  intros Hr fuel.
  induction fuel as [|fuel IH]; intros lo hi k c s a H.
  - simpl in H.
    assert (S0 : match lo with 0 => k c s | S _ => None end = Some a)
      by (destruct g; simpl in H; [|apply or_else_some in H as [H|H]]; congruence).
    destruct lo; [|discriminate].
    exists [], s, c. repeat split; [constructor | exact S0].
  - simpl in H.
    assert (D : match lo with 0 => k c s | S _ => None end = Some a \/
                (hi <> Some 0 /\
                 run r (fun c' s' => if length s' <? length s
                          then rep (run r) g k fuel (pred lo) (option_map pred hi) c' s'
                          else None) c s = Some a)).
    { destruct g; apply or_else_some in H as [H|H]; auto;
        right; destruct hi as [[|h]|]; try discriminate; split; auto; discriminate. }
    destruct D as [S0 | [Hhi M]].
    + destruct lo; [|discriminate].
      exists [], s, c. repeat split; [constructor | exact S0].
    + apply Hr in M as (x & s1 & c1 & -> & Mx & K & G1).
      destruct (length s1 <? length (x ++ s1)) eqn:L; [|discriminate].
      apply Nat.ltb_lt in L.
      apply IH in K as (y & s2 & c2 & -> & My & K & G2).
      exists (x ++ y), s2, c2. rewrite <- app_assoc. repeat split; [|exact K|].
      * apply M_rep_more; auto.
        intros ->. simpl in L. lia.
      * intro G. rewrite (G2 G), (G1 G). reflexivity.
Qed.

(** Whatever the matcher finds is a text of the pattern; a pattern without
    groups leaves the groups as they were. *)
Lemma run_sound_caps (r : regex) :
  forall (k : cont A) c s a, run r k c s = Some a ->
    exists x s' c', s = x ++ s' /\ Matches r x /\ k c' s' = Some a
                    /\ (groupless r = true -> c' = c).
Proof.
  induction r as [|b|p|r1 IH1 r2 IH2|g lo hi r IH|i r IH];
    intros k c s a H; cbn [run] in H.
  - exists [], s, c. repeat split; [constructor | exact H].
  - destruct s as [|x s]; [discriminate|].
    destruct (Ascii.eqb_spec x b) as [->|]; [|discriminate].
    exists [b], s, c. repeat split; [constructor | exact H].
  - destruct s as [|x s]; [discriminate|].
    destruct (p x) eqn:P; [|discriminate].
    exists [x], s, c. repeat split; [constructor; exact P | exact H].
  - apply IH1 in H as (x & s1 & c1 & -> & Mx & H & G1).
    apply IH2 in H as (y & s2 & c2 & -> & My & H & G2).
    exists (x ++ y), s2, c2. rewrite <- app_assoc.
    repeat split; [constructor; assumption | exact H |].
    simpl. intro G. apply andb_prop in G as [Ga Gb].
    rewrite (G2 Gb), (G1 Ga). reflexivity.
  - apply (@rep_sound r g IH) in H as (x & s' & c' & E & M & K & G).
    exists x, s', c'. auto.
  - apply IH in H as (x & s1 & c1 & -> & Mx & H & _).
    exists x, s1, ((i, firstn (length (x ++ s1) - length s1) (x ++ s1)) :: c1).
    repeat split; [constructor; assumption | exact H | discriminate].
Qed.

Lemma run_sound (r : regex) :
  forall (k : cont A) c s a, run r k c s = Some a ->
    exists x s' c', s = x ++ s' /\ Matches r x /\ k c' s' = Some a.
Proof.
  intros k c s a H. apply run_sound_caps in H as (x & s' & c' & E & M & K & _).
  eauto 6.
Qed.

(** Where the pattern has a text and the rest of the pattern can go on,
    the matcher finds some match. *)
Lemma run_complete (r : regex) x :
  Matches r x ->
  forall (k : cont A) c s',
    (forall c', k c' s' <> None) -> run r k c (x ++ s') <> None.
Proof.
  induction 1 as [|b|p b P|r1 r2 x y _ IH1 _ IH2|i r x _ IH|g hi r
                 |g lo hi r x y Hhi Hx _ IH1 _ IH2];
    intros k c s' K; cbn [run].
  - apply K.
  - simpl. rewrite Ascii.eqb_refl. apply K.
  - simpl. rewrite P. apply K.
  - rewrite <- app_assoc. apply IH1. intro c'. apply IH2, K.
  - apply IH. intro c'. apply K.
  - simpl. destruct g; intro E; apply or_else_none in E as [E1 E2];
      exact (K c E1) || exact (K c E2).
  - rewrite <- app_assoc. simpl.
    remember (x ++ y ++ s') as s eqn:Es.
    assert (L : length (y ++ s') < length s).
    { subst s. rewrite !length_app. destruct x; [congruence | simpl; lia]. }
    assert (M : run r (fun c' s1 => if length s1 <? length s
                 then rep (run r) g k (length s) (pred lo) (option_map pred hi) c' s1
                 else None) c s <> None).
    { assert (G : forall kk : cont A, (forall c', kk c' (y ++ s') <> None) ->
                    run r kk c s <> None)
        by (intros kk Hkk; rewrite Es; apply IH1; exact Hkk).
      apply G. intro c'.
      apply Nat.ltb_lt in L as L'. rewrite L'.
      specialize (IH2 k c' s' K). cbn [run] in IH2.
      erewrite rep_fuel; [exact IH2 | lia | lia]. }
    destruct hi as [[|h]|]; [congruence| |];
      destruct g; intro E; apply or_else_none in E as [E1 E2]; contradiction.
Qed.
End Run.


Lemma firstn_cut {T} (x s : list T) : firstn (length (x ++ s) - length s) (x ++ s) = x.
Proof.
  rewrite length_app, Nat.add_sub.
  rewrite firstn_app, Nat.sub_diag, firstn_all. simpl. apply app_nil_r.
Qed.

Lemma match_here_sound r ma s c s' :
  match_here r ma s = Some (c, s') ->
  exists x, s = x ++ s' /\ Matches r x /\ (ma = true -> x <> []).
Proof.
  unfold match_here. intro H.
  apply run_sound in H as (x & s1 & c1 & -> & M & K).
  destruct ma; simpl in K.
  - destruct (length s1 =? length (x ++ s1)) eqn:E; [discriminate|].
    inversion K; subst. exists x. repeat split; auto.
    intros _ ->. simpl in E. rewrite Nat.eqb_refl in E. discriminate.
  - inversion K; subst. exists x. repeat split; auto. discriminate.
Qed.

Lemma match_here_complete r x s' :
  Matches r x -> match_here r false (x ++ s') <> None.
Proof.
  intro M. unfold match_here. apply run_complete; [exact M|].
  intro c'. simpl. discriminate.
Qed.

Lemma scan_eq r ma pre s :
  scan r ma pre s =
  match match_here r ma s with
  | Some (c, s') => Some (Match (rev pre) (firstn (length s - length s') s) c s')
  | None => match s with [] => None | x :: s' => scan r false (x :: pre) s' end
  end.
Proof. destruct s; reflexivity. Qed.

(** What [scan] returns is an occurrence, and no occurrence starts in the
    text it skipped. *)
Lemma scan_hit r ma pre s c s' :
  match_here r ma s = Some (c, s') ->
  let mt := Match (rev pre) (firstn (length s - length s') s) c s' in
  before mt = rev pre ++ [] /\
  s = [] ++ matched mt ++ after mt /\
  Matches r (matched mt) /\
  (ma = true -> matched mt <> []).
Proof.
  intros E mt. subst mt. cbn [before matched after].
  apply match_here_sound in E as (x & -> & M & N).
  rewrite app_nil_r, firstn_cut. auto.
Qed.

Lemma scan_sound r : forall s ma pre mt,
  scan r ma pre s = Some mt ->
  exists skipped,
    before mt = rev pre ++ skipped /\
    s = skipped ++ matched mt ++ after mt /\
    Matches r (matched mt) /\
    (ma = true -> skipped = [] -> matched mt <> []) /\
    (ma = false -> forall u x v, occurs_at r s u x v -> length skipped <= length u).
Proof.
  assert (Hit : forall s ma pre mt c s',
    match_here r ma s = Some (c, s') ->
    Some (Match (rev pre) (firstn (length s - length s') s) c s') = Some mt ->
    exists skipped,
      before mt = rev pre ++ skipped /\
      s = skipped ++ matched mt ++ after mt /\
      Matches r (matched mt) /\
      (ma = true -> skipped = [] -> matched mt <> []) /\
      (ma = false -> forall u x v, occurs_at r s u x v -> length skipped <= length u)).
  { intros s ma pre mt c s' E H.
    assert (Hm : mt = Match (rev pre) (firstn (length s - length s') s) c s')
      by congruence.
    destruct (@scan_hit r ma pre s c s' E) as (B & S & M & N). rewrite <- Hm in *.
    exists []. repeat split; auto. intros; simpl; lia. }
  induction s as [|a s IH]; intros ma pre mt H; rewrite scan_eq in H.
  - destruct (match_here r ma []) as [[c s']|] eqn:E; [|discriminate].
    eapply Hit; eauto.
  - destruct (match_here r ma (a :: s)) as [[c s']|] eqn:E.
    + eapply Hit; eauto.
    + apply IH in H as (sk & B & S & M & _ & L).
      exists (a :: sk). simpl in B. rewrite <- app_assoc in B. simpl in B.
      repeat split; auto.
      * simpl. congruence.
      * discriminate.
      * intros -> u x v [Eq Mx]. destruct u as [|b u].
        -- exfalso. simpl in Eq. rewrite Eq in E.
           exact (match_here_complete v Mx E).
        -- simpl in Eq. inversion Eq; subst. simpl.
           apply le_n_S. apply (L eq_refl u x v). split; auto.
Qed.

Lemma scan_none r : forall s pre,
  scan r false pre s = None -> ~ occurs r s.
Proof.
  induction s as [|a s IH]; intros pre H (u & x & v & Eq & M); rewrite scan_eq in H.
  - destruct (match_here r false []) as [[c s']|] eqn:E; [discriminate|].
    destruct u; [|discriminate]. simpl in Eq. rewrite Eq in E.
    exact (match_here_complete v M E).
  - destruct (match_here r false (a :: s)) as [[c s']|] eqn:E; [discriminate|].
    destruct u as [|b u].
    + simpl in Eq. rewrite Eq in E. exact (match_here_complete v M E).
    + simpl in Eq. inversion Eq; subst.
      eapply IH; [exact H|]. exists u, x, v. split; auto.
Qed.

Lemma scan_some r : forall s pre,
  occurs r s -> scan r false pre s <> None.
Proof.
  intros s pre O H. eapply scan_none; eauto.
Qed.

(** [search] decides whether the pattern occurs. *)
Lemma search_none_iff r s : search r s = None <-> ~ occurs r s.
Proof.
  split; [apply scan_none|].
  intro N. unfold search. destruct (scan r false [] s) as [mt|] eqn:E; [|reflexivity].
  exfalso. apply N. apply scan_sound in E as (sk & B & S & M & _).
  exists sk, (matched mt), (after mt). split; auto.
Qed.

(** The match [scan] returns when it is known where the first one is. *)
Lemma scan_at r : forall skipped pre rest c s',
  (forall u v, skipped = u ++ v -> v <> [] -> match_here r false (v ++ rest) = None) ->
  match_here r false rest = Some (c, s') ->
  scan r false pre (skipped ++ rest)
  = Some (Match (rev pre ++ skipped) (firstn (length rest - length s') rest) c s').
Proof.
  induction skipped as [|a sk IH]; intros pre rest c s' N H.
  - simpl app. rewrite app_nil_r, scan_eq, H. reflexivity.
  - rewrite scan_eq.
    pose proof (N [] (a :: sk) eq_refl) as N0. simpl app in N0.
    simpl app. rewrite N0 by discriminate.
    rewrite (IH (a :: pre) rest c s'); auto.
    + simpl. rewrite <- app_assoc. reflexivity.
    + intros u v -> Hv. apply (N (a :: u) v); auto.
Qed.


(** *** Templates *)

Lemma parse_template_plain n : forall fuel s,
  length s <= fuel -> no_backslash s = true ->
  parse_template n fuel s = Ok (map TLit s).
Proof.
  induction fuel as [|fuel IH]; intros s L N.
  - destruct s; [reflexivity | simpl in L; lia].
  - destruct s as [|a s]; [reflexivity|].
    simpl in N. apply andb_prop in N as [Na N]. apply negb_true_iff in Na.
    simpl. rewrite Na. rewrite IH; [reflexivity | simpl in L; lia | exact N].
Qed.

Lemma template_plain n s : no_backslash s = true -> template n s = Ok (map TLit s).
Proof. intro N. apply parse_template_plain; auto. Qed.

Lemma expand_lits s mt : expand (map TLit s) mt = s.
Proof. induction s as [|a s IH]; simpl; congruence. Qed.

(** *** Pieces of patterns *)

Section Pieces.
Variable A : Type.
Implicit Types (k : cont A) (c : caps) (s : str).

Lemma run_lit l : forall k c s, run (lit l) k c (l ++ s) = k c s.
Proof.
  induction l as [|a l IH]; intros k c s; [reflexivity|].
  simpl. rewrite Ascii.eqb_refl. apply IH.
Qed.

Lemma run_lit_fail l : forall k c s, is_prefix l s = false -> run (lit l) k c s = None.
Proof.
  induction l as [|a l IH]; intros k c s P; [discriminate|].
  destruct s as [|b s]; [reflexivity|]. simpl in *.
  rewrite Ascii.eqb_sym. destruct (Ascii.eqb a b); [apply IH; exact P | reflexivity].
Qed.

Lemma run_cat_all_app rs1 rs2 : forall k c s,
  run (cat_all (rs1 ++ rs2)) k c s = run (cat_all rs1) (run (cat_all rs2) k) c s.
Proof.
  induction rs1 as [|r rs1 IH]; intros k c s; [reflexivity|].
  simpl. apply run_ext. intros c' s'. apply IH.
Qed.

Lemma run_rep g lo hi r k c s :
  run (Rep g lo hi r) k c s = rep (run r) g k (S (length s)) lo hi c s.
Proof. reflexivity. Qed.

Lemma rep_S (body : cont A -> cont A) g k f lo hi c s :
  rep body g k (S f) lo hi c s =
  let stop := match lo with 0 => k c s | S _ => None end in
  let more :=
    match hi with
    | Some 0 => None
    | _ => body (fun c' s' =>
                   if length s' <? length s
                   then rep body g k f (pred lo) (option_map pred hi) c' s'
                   else None) c s
    end in
  if g then or_else more stop else or_else stop more.
Proof. reflexivity. Qed.

Lemma run_cls_cons (p : ascii -> bool) k c x s :
  run (Cls p) k c (x :: s) = if p x then k c s else None.
Proof. reflexivity. Qed.

Lemma run_cls_nil (p : ascii -> bool) k c : run (Cls p) k c [] = None.
Proof. reflexivity. Qed.

Lemma run_cls_fail (p : ascii -> bool) k c s :
  match s with x :: _ => p x = false | [] => True end ->
  run (Cls p) k c s = None.
Proof. destruct s as [|x s]; [reflexivity|]. intro H. rewrite run_cls_cons, H. reflexivity. Qed.

Lemma or_else_None_l (y : option A) : or_else None y = y.
Proof. reflexivity. Qed.

Lemma ltb_tail {T} (x : T) (l : list T) : (length l <? length (x :: l)) = true.
Proof. apply Nat.ltb_lt. simpl. lia. Qed.

(** A greedy star over a class takes the whole run of its characters
    when the rest of the pattern then succeeds. *)
Lemma run_star_munch (p : ascii -> bool) w : forall k c s a,
  forallb p w = true ->
  k c s = Some a ->
  match s with x :: _ => p x = false | [] => True end ->
  run (Rep true 0 None (Cls p)) k c (w ++ s) = Some a.
Proof.
  induction w as [|x w IH]; intros k c s a W K Hd.
  - simpl app. rewrite run_rep, rep_S. cbv zeta.
    rewrite run_cls_fail by exact Hd. simpl. exact K.
  - simpl in W. apply andb_prop in W as [Px W].
    simpl app. rewrite run_rep, rep_S. cbv zeta.
    rewrite run_cls_cons, Px, ltb_tail.
    specialize (IH k c s a W K Hd). rewrite run_rep in IH.
    cbn [option_map pred length].
    erewrite rep_fuel; [rewrite IH; reflexivity | lia | lia].
Qed.

(** A lazy [.] star stops at the first place where the rest succeeds. *)
Lemma run_lazy_skip body : forall k c s a,
  (forall u v c', body = u ++ v -> v <> [] -> k c' (v ++ s) = None) ->
  k c s = Some a ->
  run (Rep false 0 None (Cls any_char)) k c (body ++ s) = Some a.
Proof.
  induction body as [|x body IH]; intros k c s a N K.
  - simpl app. rewrite run_rep, rep_S. cbv zeta. rewrite K. reflexivity.
  - simpl app. rewrite run_rep, rep_S. cbv zeta.
    pose proof (N [] (x :: body) c eq_refl) as N0. simpl app in N0.
    rewrite N0 by discriminate. rewrite or_else_None_l.
    rewrite run_cls_cons. unfold any_char at 1. rewrite ltb_tail.
    specialize (IH k c s a). rewrite run_rep in IH.
    cbn [option_map pred length].
    erewrite rep_fuel; [apply IH; auto | lia | lia].
    intros u v c' -> Hv. apply (N (x :: u) v c'); auto.
Qed.

Lemma run_cat r1 r2 k c s : run (Cat r1 r2) k c s = run r1 (run r2 k) c s.
Proof. reflexivity. Qed.



End Pieces.


(** *** The loop of sub *)

Lemma sub_loop_S r tpl f ma s :
  sub_loop r tpl (S f) ma s =
  match scan r ma [] s with
  | None => s
  | Some mt => before mt ++ expand tpl mt
               ++ sub_loop r tpl f (length (matched mt) =? 0) (after mt)
  end.
Proof. reflexivity. Qed.

(** The fuel [sub] gives is enough. *)
Lemma sub_loop_fuel r tpl : forall f f' (ma : bool) s,
  2 * length s + (if ma then 1 else 2) <= f ->
  2 * length s + (if ma then 1 else 2) <= f' ->
  sub_loop r tpl f ma s = sub_loop r tpl f' ma s.
Proof.
  induction f as [|f IH]; intros f' ma s L L'.
  - destruct ma; lia.
  - destruct f' as [|f']; [destruct ma; lia|].
    rewrite !sub_loop_S.
    destruct (scan r ma [] s) as [mt|] eqn:E; [|reflexivity].
    apply scan_sound in E as (sk & B & S & M & Adv & _).
    assert (Len : length s = length sk + length (matched mt) + length (after mt))
      by (rewrite S at 1; rewrite !length_app; lia).
    f_equal. f_equal.
    destruct (length (matched mt) =? 0) eqn:Z.
    + apply Nat.eqb_eq in Z.
      apply IH.
      * destruct ma; [|lia].
        destruct sk as [|a sk]; [|simpl in Len; lia].
        exfalso. apply (Adv eq_refl eq_refl). apply length_zero_iff_nil, Z.
      * destruct ma; [|lia].
        destruct sk as [|a sk]; [|simpl in Len; lia].
        exfalso. apply (Adv eq_refl eq_refl). apply length_zero_iff_nil, Z.
    + apply Nat.eqb_neq in Z. apply IH; destruct ma; lia.
Qed.

End ReFacts.

(** ** Marker substitution *)

Module ChunkFacts.
Import Re ReFacts.

Lemma Matches_lit l : Matches (lit l) l.
Proof.
  induction l as [|a l IH]; [constructor|].
  change (a :: l) with ([a] ++ l). simpl lit. constructor; [constructor | exact IH].
Qed.

Lemma Matches_lit_inv l : forall x, Matches (lit l) x -> x = l.
Proof.
  induction l as [|a l IH]; intros x M; simpl in M.
  - inversion M. reflexivity.
  - inversion M as [| | |r1 r2 u v Mu Mv| | |]; subst.
    inversion Mu; subst. simpl. f_equal. apply IH, Mv.
Qed.

Lemma Matches_cat_inv r1 r2 x :
  Matches (Cat r1 r2) x -> exists u v, x = u ++ v /\ Matches r1 u /\ Matches r2 v.
Proof. intro M. inversion M; subst. eauto. Qed.

Lemma Matches_cat_all_app rs1 : forall rs2 x,
  Matches (cat_all (rs1 ++ rs2)) x <->
  exists u v, x = u ++ v /\ Matches (cat_all rs1) u /\ Matches (cat_all rs2) v.
Proof.
  induction rs1 as [|r rs1 IH]; intros rs2 x; simpl.
  - split.
    + intro M. exists [], x. repeat split; [constructor | exact M].
    + intros (u & v & -> & Mu & Mv). inversion Mu. exact Mv.
  - split.
    + intro M. apply Matches_cat_inv in M as (u & v & -> & Mu & Mv).
      apply IH in Mv as (v1 & v2 & -> & M1 & M2).
      exists (u ++ v1), v2. rewrite app_assoc. repeat split; auto.
      constructor; auto.
    + intros (u & v & -> & Mu & Mv).
      apply Matches_cat_inv in Mu as (u1 & u2 & -> & M1 & M2).
      rewrite <- app_assoc. constructor; auto.
      apply IH. eauto.
Qed.

(** Every text of the pattern starts with the [<] of the start marker. *)
Lemma chunk_starts marker x :
  Matches (chunk_pattern marker) x -> exists t, x = "<"%char :: t.
Proof.
  unfold chunk_pattern. simpl. intro M.
  apply Matches_cat_inv in M as (u & v & -> & Mu & _).
  apply (@Matches_lit_inv (of_string "<!--")) in Mu. subst u. simpl. eauto.
Qed.

Lemma chunk_nonempty marker x :
  Matches (chunk_pattern marker) x -> (length x =? 0) = false.
Proof. intro M. apply chunk_starts in M as [t ->]. reflexivity. Qed.

Lemma plain_no_backslash marker : marker_plain marker = true -> no_backslash marker = true.
Proof.
  unfold marker_plain, no_backslash. rewrite !forallb_forall.
  intros H a Ha. specialize (H a Ha).
  destruct (code a =? 92) eqn:E; [|reflexivity].
  apply Nat.eqb_eq in E. unfold code in E.
  assert (a = ascii_of_nat 92) by (rewrite <- E; symmetry; apply ascii_nat_embedding).
  subst a. discriminate H.
Qed.

Lemma no_backslash_app a b :
  no_backslash (a ++ b) = no_backslash a && no_backslash b.
Proof. apply forallb_app. Qed.

Lemma replacement_plain marker chunk inline :
  marker_plain marker = true -> no_backslash chunk = true ->
  no_backslash (replacement marker (wrapped chunk inline)) = true.
Proof.
  intros Hm Hc. apply plain_no_backslash in Hm.
  unfold replacement, wrapped. destruct inline; simpl negb; cbv iota;
    rewrite !no_backslash_app, ?Hm, ?Hc; reflexivity.
Qed.

Lemma plain_template_ok marker chunk inline :
  marker_plain marker = true -> no_backslash chunk = true ->
  template_ok (replacement marker (wrapped chunk inline)) = true.
Proof.
  intros Hm Hc. unfold template_ok.
  rewrite template_plain; [reflexivity | apply replacement_plain; auto].
Qed.

(** With a plain name and a good template the call is the loop of sub. *)
Lemma replace_chunk_eq content marker chunk inline tpl :
  marker_plain marker = true ->
  template 0 (replacement marker (wrapped chunk inline)) = Ok tpl ->
  replace_chunk content marker chunk inline
  = Returns (sub_loop (chunk_pattern marker) tpl (2 * length content + 2) false content).
Proof.
  intros Hm Ht. unfold replace_chunk, sub. rewrite Hm, Ht. reflexivity.
Qed.

Lemma template_ok_inv repl : template_ok repl = true -> exists tpl, template 0 repl = Ok tpl.
Proof. unfold template_ok. destruct (template 0 repl); [eauto | discriminate]. Qed.


Lemma Matches_star_cls g (p : ascii -> bool) w :
  Matches (Rep g 0 None (Cls p)) w <-> forallb p w = true.
Proof.
  split.
  - intro M. remember (Rep g 0 None (Cls p)) as r eqn:Er.
    induction M as [| | | | | |g' lo hi r x y Hhi Hx Mx _ My IH]; try discriminate.
    + reflexivity.
    + inversion Er; subst. inversion Mx; subst. simpl.
      rewrite IH by reflexivity. rewrite H0. reflexivity.
  - induction w as [|a w IH]; intro W; [constructor|].
    simpl in W. apply andb_prop in W as [Pa W].
    change (a :: w) with ([a] ++ w).
    apply M_rep_more; [discriminate | discriminate | constructor; exact Pa | apply IH, W].
Qed.

(** The texts of a marker: [<!--], blanks, the name, blanks, the word,
    blanks, [-->]. *)
Lemma marker_shape marker word x :
  Matches (cat_all (marker_re marker word)) x <->
  exists w1 w2 w3,
    x = of_string "<!--" ++ w1 ++ marker ++ w2 ++ word ++ w3 ++ of_string "-->" /\
    forallb is_space w1 = true /\ forallb is_space w2 = true /\
    forallb is_space w3 = true.
Proof.
  unfold marker_re, cat_all. cbn [fold_right]. split.
  - intro M.
    apply Matches_cat_inv in M as (a1 & t1 & -> & M1 & M).
    apply Matches_cat_inv in M as (w1 & t2 & -> & W1 & M).
    apply Matches_cat_inv in M as (a2 & t3 & -> & M2 & M).
    apply Matches_cat_inv in M as (w2 & t4 & -> & W2 & M).
    apply Matches_cat_inv in M as (a3 & t5 & -> & M3 & M).
    apply Matches_cat_inv in M as (w3 & t6 & -> & W3 & M).
    apply Matches_cat_inv in M as (a4 & t7 & -> & M4 & M).
    inversion M; subst.
    apply Matches_lit_inv in M1, M2, M3, M4. subst.
    apply Matches_star_cls in W1, W2, W3.
    exists w1, w2, w3. rewrite app_nil_r. auto.
  - intros (w1 & w2 & w3 & -> & W1 & W2 & W3).
    repeat (constructor; [first [apply Matches_lit | apply Matches_star_cls; assumption]|]).
    rewrite <- (app_nil_r (of_string "-->")).
    constructor; [apply Matches_lit | constructor].
Qed.

(** The texts of the whole pattern: a start marker, anything, an end marker. *)
Lemma chunk_shape marker x :
  Matches (chunk_pattern marker) x <->
  exists sm body em,
    x = sm ++ body ++ em /\
    Matches (cat_all (marker_re marker "starts")) sm /\
    Matches (cat_all (marker_re marker "ends")) em.
Proof.
  unfold chunk_pattern. rewrite Matches_cat_all_app. split.
  - intros (sm & t & -> & Ms & M).
    simpl in M. apply Matches_cat_inv in M as (body & em & -> & _ & Me).
    exists sm, body, em. auto.
  - intros (sm & body & em & -> & Ms & Me).
    exists sm, (body ++ em). repeat split; auto.
    simpl. constructor; [|exact Me].
    apply Matches_star_cls. apply forallb_forall. reflexivity.
Qed.

(** C5, as the code has it.  For a plain region name and a content without
    a backslash: the first region [search] finds is replaced by the start
    marker, the content (between two newlines unless [inline]) and the end
    marker, and the text after it is treated the same way.  The two
    scenarios of the specification hold as written. *)
Theorem replace_chunk_inserts :
  (forall content marker chunk inline mt,
     marker_plain marker = true ->
     no_backslash chunk = true ->
     search (chunk_pattern marker) content = Some mt ->
     exists tail,
       replace_chunk (after mt) marker chunk inline = Returns tail /\
       replace_chunk content marker chunk inline
       = Returns (before mt ++ replacement marker (wrapped chunk inline) ++ tail))
  /\ replace_chunk "Hello <!-- s starts -->old<!-- s ends --> X" "s" "new" true
     = Returns "Hello <!-- s starts -->new<!-- s ends --> X"
  /\ replace_chunk "A<!-- s starts -->x<!-- s ends -->B" "s" "body" false
     = Returns (of_string "A<!-- s starts -->" ++ nl ++ of_string "body" ++ nl
                ++ of_string "<!-- s ends -->B").
Proof.
  split; [|split; reflexivity].
  intros content marker chunk inline mt Hm Hc Hs.
  pose proof (replacement_plain marker chunk inline Hm Hc) as Hr.
  pose proof (template_plain 0 _ Hr) as Ht.
  exists (sub_loop (chunk_pattern marker)
            (map TLit (replacement marker (wrapped chunk inline)))
            (2 * length (after mt) + 2) false (after mt)).
  split; [apply replace_chunk_eq; assumption|].
  rewrite (replace_chunk_eq content marker chunk inline Hm Ht). f_equal.
  rewrite Nat.add_comm. simpl Nat.add. rewrite sub_loop_S.
  unfold search in Hs. rewrite Hs, expand_lits.
  apply scan_sound in Hs as (sk & B & S & M & _).
  rewrite (chunk_nonempty M). do 2 f_equal.
  apply chunk_starts in M as [t Et].
  apply sub_loop_fuel; [|lia].
  rewrite S, Et, !length_app. simpl. lia.
Qed.

Lemma replace_chunk_inserts_witness :
  marker_plain "s" = true /\ no_backslash "<br>" = true /\
  exists mt tail,
    search (chunk_pattern "s") "a<!--s starts--><!--s ends-->b" = Some mt /\
    replace_chunk (after mt) "s" "<br>" true = Returns tail /\
    replace_chunk "a<!--s starts--><!--s ends-->b" "s" "<br>" true
    = Returns (before mt ++ replacement "s" (wrapped "<br>" true) ++ tail).
Proof.
  split; [reflexivity|]. split; [reflexivity|].
  eexists.
  destruct (proj1 replace_chunk_inserts "a<!--s starts--><!--s ends-->b" "s" "<br>" true
              _ eq_refl eq_refl eq_refl) as [tail [H1 H2]].
  exists tail. split; [reflexivity|]. split; [exact H1 | exact H2].
Defined.

(** C5 as stated fails: the content is read as a replacement template, so
    two backslashes go in as one. *)
Lemma replace_chunk_not_verbatim :
  replace_chunk "Hello <!-- s starts -->old<!-- s ends --> X" "s" "a\\b" true
  = Returns "Hello <!-- s starts -->a\b<!-- s ends --> X" /\
  replace_chunk "Hello <!-- s starts -->old<!-- s ends --> X" "s" "a\\b" true
  <> Returns "Hello <!-- s starts -->a\\b<!-- s ends --> X".
Proof. split; [reflexivity | discriminate]. Qed.







(** C8, as the code has it.  When the document has no span that the pattern
    of the region matches, and the replacement text is one [re] accepts,
    [replace_chunk] returns the document unchanged, for both values of
    [inline].  (The replacement text is read before the search, so the
    condition on it is needed even though nothing is replaced.) *)
Theorem replace_chunk_no_region content marker chunk inline :
  marker_plain marker = true ->
  template_ok (replacement marker (wrapped chunk inline)) = true ->
  ~ occurs (chunk_pattern marker) content ->
  replace_chunk content marker chunk inline = Returns content.
Proof.
  intros Hm Ht No.
  apply template_ok_inv in Ht as [tpl Ht].
  rewrite (replace_chunk_eq content marker chunk inline Hm Ht).
  f_equal. rewrite Nat.add_comm. simpl Nat.add. rewrite sub_loop_S.
  apply search_none_iff in No. unfold search in No. rewrite No. reflexivity.
Qed.

Lemma replace_chunk_no_region_witness :
  marker_plain "s" = true /\
  template_ok (replacement "s" (wrapped "new" true)) = true /\
  ~ occurs (chunk_pattern "s") "Hello <!-- t starts -->x<!-- t ends -->" /\
  replace_chunk "Hello <!-- t starts -->x<!-- t ends -->" "s" "new" true
  = Returns "Hello <!-- t starts -->x<!-- t ends -->".
Proof.
  assert (No : ~ occurs (chunk_pattern "s") "Hello <!-- t starts -->x<!-- t ends -->")
    by (apply search_none_iff; reflexivity).
  split; [reflexivity|]. split; [reflexivity|]. split; [exact No|].
  apply replace_chunk_no_region; [reflexivity | reflexivity | exact No].
Defined.

(** C8 as stated fails: with no region in the document and the content
    [\q], which is not a replacement text [re] accepts, the call raises. *)
Lemma replace_chunk_no_region_raises :
  ~ occurs (chunk_pattern "s") "Hello" /\
  replace_chunk "Hello" "s" "\q" true = Raises re_error /\
  replace_chunk "Hello" "s" "\q" true <> Returns "Hello".
Proof.
  split; [apply search_none_iff; reflexivity|].
  split; [reflexivity | discriminate].
Qed.

End ChunkFacts.

(** ** The statistics aggregator *)

Module StatsFacts.

(** C3.  When anything fails while the repositories are enumerated or the
    profile is read (the client set-up, the iteration over the
    repositories, the follower count), [fetch_github_stats] returns the
    fallback record it was given, whatever was summed before the failure. *)
Theorem fetch_github_stats_fallback (api : Api) (fallback : Stats) :
  (exists e, get_user api = Raise e)
  \/ (exists e, get_repos_end api = Some e)
  \/ (exists e, user_followers api = Raise e) ->
  fetch_github_stats api (Some fallback) = fallback.
Proof.
  intro F. unfold fetch_github_stats, stats_try, iteration_end.
  destruct (get_user api) as [u|e0]; simpl; [|reflexivity].
  destruct (get_repos_end api) as [e1|]; simpl; [reflexivity|].
  destruct (user_followers api) as [fo|e2]; simpl; [|reflexivity].
  destruct F as [[e F]|[[e F]|[e F]]]; discriminate.
Qed.

Lemma fetch_github_stats_fallback_witness :
  let repo := mkRepo "a" "u" None false 5 7 (Ok []) in
  let api := mkApi (Ok tt) [repo; repo] (Some (ApiError 1)) (Ok 3%Z) in
  get_repos_end api = Some (ApiError 1) /\
  sum_repos (get_repos api) 0 0 = (10, 14)%Z /\
  fetch_github_stats api (Some (mkStats 1 2 3)) = mkStats 1 2 3.
Proof.
  intros repo api. split; [reflexivity|]. split; [reflexivity|].
  apply fetch_github_stats_fallback. right. left. exists (ApiError 1). reflexivity.
Defined.

(** Without a failure the record holds the sums over the repositories that
    are not forks and the follower count. *)
Lemma fetch_github_stats_ok (api : Api) current fo :
  get_user api = Ok tt -> get_repos_end api = None -> user_followers api = Ok fo ->
  fetch_github_stats api current
  = mkStats fo (fst (sum_repos (get_repos api) 0 0)) (snd (sum_repos (get_repos api) 0 0)).
Proof.
  intros H1 H2 H3. unfold fetch_github_stats, stats_try, iteration_end.
  rewrite H1, H2, H3. reflexivity.
Qed.

End StatsFacts.

(** ** The str methods *)

Module StrFacts.

Lemma is_prefix_app p : forall a b, is_prefix p (p ++ b) = true /\
  (length p <= length a -> is_prefix p (a ++ b) = is_prefix p a).
Proof.
  induction p as [|x p IH]; intros a b.
  - split; reflexivity.
  - split.
    + simpl. rewrite Ascii.eqb_refl. apply (IH [] b).
    + intro L. destruct a as [|y a]; [simpl in L; lia|].
      simpl. rewrite (proj2 (IH a b)) by (simpl in L; lia). reflexivity.
Qed.

Lemma contains_tail p a s : contains p (a :: s) = false -> contains p s = false.
Proof. simpl. intro H. apply orb_false_iff in H as [_ H]. exact H. Qed.

(** The characters of an occurrence that are still to be dropped. *)
Lemma replace_from_skip old new : forall w v,
  replace_from old new (length w) (w ++ v) = replace_from old new 0 v.
Proof.
  induction w as [|a w IH]; intro v; [reflexivity|].
  simpl. apply IH.
Qed.

(** Where [old] does not occur, nothing is replaced. *)
Lemma py_replace_absent s old new :
  old <> [] -> contains old s = false -> py_replace s old new = s.
Proof.
  intros Ho. destruct old as [|o old]; [congruence|]. unfold py_replace.
  induction s as [|a s IH]; intro C; [reflexivity|].
  cbn [replace_from]. cbn [contains] in C. apply orb_false_iff in C as [P C].
  rewrite P, IH by exact C. reflexivity.
Qed.

(** The first occurrence of [old] is replaced, and the text after it is
    treated the same way: occurrences go from left to right and do not
    overlap. *)
Lemma py_replace_first old new : forall u v,
  old <> [] ->
  contains old (u ++ removelast old) = false ->
  py_replace (u ++ old ++ v) old new = u ++ new ++ py_replace v old new.
Proof.
  intros u v Ho. destruct old as [|o old]; [congruence|]. unfold py_replace.
  induction u as [|a u IH]; intro C.
  - cbn [app replace_from].
    pose proof (proj1 (is_prefix_app (o :: old) [] v)) as P0. cbn [app] in P0.
    rewrite P0.
    replace (length (o :: old) - 1) with (length old) by (simpl; lia).
    rewrite replace_from_skip. reflexivity.
  - change ((a :: u) ++ (o :: old) ++ v) with (a :: (u ++ (o :: old) ++ v)).
    cbn [replace_from].
    assert (P : is_prefix (o :: old) (a :: u ++ (o :: old) ++ v) = false).
    { pose proof C as C0. cbn [app contains] in C0.
      apply orb_false_iff in C0 as [P0 _].
      rewrite (app_removelast_last o (l := o :: old)) at 2 by discriminate.
      rewrite <- app_assoc, app_assoc, app_comm_cons.
      rewrite (proj2 (is_prefix_app (o :: old) _ _)); [exact P0|].
      assert (R : length (removelast (o :: old)) = length old).
      { clear. revert o. induction old as [|b old IH]; intro o; [reflexivity|].
        change (removelast (o :: b :: old)) with (o :: removelast (b :: old)).
        cbn [length]. f_equal. apply IH. }
      cbn [length]. rewrite length_app, R. lia. }
    rewrite P. change ((a :: u) ++ new ++ replace_from (o :: old) new 0 v)
      with (a :: (u ++ new ++ replace_from (o :: old) new 0 v)).
    f_equal. apply IH. exact (contains_tail _ _ _ C).
Qed.

Lemma lstrip_spec : forall s,
  exists l, s = l ++ lstrip s /\ forallb is_space l = true
            /\ heads (fun x => is_space x = false) (lstrip s).
Proof.
  induction s as [|a s IH].
  - exists []. repeat split.
  - simpl. destruct (is_space a) eqn:E.
    + destruct IH as (l & Es & Sl & H). exists (a :: l).
      simpl. rewrite E, Sl. rewrite <- Es. auto.
    + exists []. simpl. auto.
Qed.

(** [strip] takes blanks, and only blanks, from both ends. *)
Lemma strip_spec s :
  exists l r,
    s = l ++ strip s ++ r /\
    forallb is_space l = true /\ forallb is_space r = true /\
    heads (fun x => is_space x = false) (strip s) /\
    heads (fun x => is_space x = false) (rev (strip s)).
Proof.
  unfold strip.
  destruct (lstrip_spec s) as (l & Es & Sl & Hl).
  destruct (lstrip_spec (rev (lstrip s))) as (r & Er & Sr & Hr).
  exists l, (rev r).
  assert (Et : lstrip s = rev (lstrip (rev (lstrip s))) ++ rev r).
  { rewrite <- rev_app_distr, <- Er, rev_involutive. reflexivity. }
  split; [rewrite <- Et; exact Es|].
  split; [exact Sl|].
  split; [rewrite forallb_forall in *; intros x Hx; apply Sr, in_rev, Hx|].
  split; [|rewrite rev_involutive; exact Hr].
  rewrite Et in Hl. destruct (rev (lstrip (rev (lstrip s)))); [exact I | exact Hl].
Qed.

End StrFacts.

(** ** The release aggregator *)

Module ReleaseFacts.




Lemma append_releases_acc r : forall rels acc,
  append_releases r rels acc
  = (acc ++ fst (append_releases r rels []), snd (append_releases r rels [])).
Proof.
  induction rels as [|rel rels IH]; intro acc; simpl.
  - rewrite app_nil_r. reflexivity.
  - destruct (release_record r rel) as [rec|e]; simpl.
    + rewrite (IH (acc ++ [rec])), (IH [rec]). simpl. rewrite <- app_assoc. reflexivity.
    + rewrite app_nil_r. reflexivity.
Qed.

Lemma visit_repo_acc r acc : visit_repo r acc = acc ++ visit_repo r [].
Proof.
  unfold visit_repo. destruct (fork r); [rewrite app_nil_r; reflexivity|].
  destruct (get_releases r) as [rels|e]; [|rewrite app_nil_r; reflexivity].
  rewrite append_releases_acc. reflexivity.
Qed.

Lemma visit_repos_acc : forall rs acc, visit_repos rs acc = acc ++ visit_repos rs [].
Proof.
  unfold visit_repos.
  induction rs as [|r rs IH]; intro acc; simpl.
  - rewrite app_nil_r. reflexivity.
  - rewrite (IH (visit_repo r acc)), (IH (visit_repo r [])), (visit_repo_acc r acc).
    rewrite <- app_assoc. reflexivity.
Qed.

Lemma visit_repos_app l1 l2 :
  visit_repos (l1 ++ l2) [] = visit_repos l1 [] ++ visit_repos l2 [].
Proof.
  unfold visit_repos at 1. rewrite fold_left_app.
  fold (visit_repos l1 []). fold (visit_repos l2 (visit_repos l1 [])).
  apply visit_repos_acc.
Qed.

Lemma visit_repos_cons r l : visit_repos (r :: l) [] = visit_repo r [] ++ visit_repos l [].
Proof. change (r :: l) with ([r] ++ l). apply visit_repos_app. Qed.

(** The records of the releases mapped before the one that raises. *)
Lemma append_releases_stops r e : forall done recs bad rest,
  Forall2 (fun rel rec => release_record r rel = Ok rec) done recs ->
  release_record r bad = Raise e ->
  append_releases r (done ++ bad :: rest) [] = (recs, Some e).
Proof.
  induction done as [|rel done IH]; intros recs bad rest F B.
  - inversion F; subst. simpl. rewrite B. reflexivity.
  - inversion F as [|? rec ? recs' Hr F']; subst. simpl. rewrite Hr.
    rewrite append_releases_acc, (IH recs' bad rest F' B). reflexivity.
Qed.

(** C4, as the code has it.  A failure while one repository's releases are
    processed is caught and the other repositories, before and after it,
    give their records as usual.  When listing the releases fails the
    repository gives no record; when mapping one of its releases fails the
    records of its releases mapped before that one stay in the output. *)
Theorem fetch_releases_failed_repo (api : Api) (l1 l2 : list Repo) (r : Repo) :
  get_user api = Ok tt ->
  get_repos_end api = None ->
  get_repos api = l1 ++ r :: l2 ->
  fork r = false ->
  ((exists e, get_releases r = Raise e) ->
   fetch_releases api = visit_repos l1 [] ++ visit_repos l2 [])
  /\
  (forall rels done bad rest recs e,
     get_releases r = Ok rels ->
     firstn 5 rels = done ++ bad :: rest ->
     Forall2 (fun rel rec => release_record r rel = Ok rec) done recs ->
     release_record r bad = Raise e ->
     fetch_releases api = visit_repos l1 [] ++ recs ++ visit_repos l2 []).
Proof.
  intros Hu He Hr Hf.
  assert (E : fetch_releases api
              = visit_repos l1 [] ++ visit_repo r [] ++ visit_repos l2 []).
  { unfold fetch_releases. rewrite Hu, He, Hr.
    rewrite visit_repos_app, visit_repos_cons. reflexivity. }
  split.
  - intros [e Hg]. rewrite E. unfold visit_repo. rewrite Hf, Hg. reflexivity.
  - intros rels done bad rest recs e Hg Hcut Hdone Hbad.
    rewrite E. unfold visit_repo. rewrite Hf, Hg, Hcut.
    erewrite append_releases_stops; [reflexivity | exact Hdone | exact Hbad].
Qed.

Lemma fetch_releases_failed_repo_witness :
  let good t := mkRelease (Ok (Some (of_string t))) (Ok (of_string "v"))
                          (Ok None) (Ok (of_string "w")) in
  let a := mkRepo "a" "ua" None false 0 0 (Ok [good "a1"]) in
  let b := mkRepo "b" "ub" None false 0 0 (Raise (ApiError 7)) in
  let c := mkRepo "c" "uc" None false 0 0 (Ok [good "c1"]) in
  let api := mkApi (Ok tt) [a; b; c] None (Ok 0%Z) in
  fetch_releases api
  = [mkRecord "a" "ua" [] "1" [] "w"; mkRecord "c" "uc" [] "1" [] "w"].
Proof.
  intros good a b c api.
  exact (proj1 (@fetch_releases_failed_repo api [a] [c] b eq_refl eq_refl eq_refl eq_refl)
               (ex_intro _ (ApiError 7) eq_refl)).
Defined.

(** C4 as stated fails: the second release of the repository raises while
    it is mapped, the failure is caught, and the record of the first
    release is in the output all the same. *)
Lemma fetch_releases_partial_records :
  let first := mkRelease (Ok (Some (of_string "one"))) (Ok (of_string "v1"))
                         (Ok None) (Ok (of_string "w1")) in
  let second := mkRelease (Raise (ApiError 7)) (Ok (of_string "v2"))
                          (Ok None) (Ok (of_string "w2")) in
  let r := mkRepo "a" "ua" None false 0 0 (Ok [first; second]) in
  let api := mkApi (Ok tt) [r] None (Ok 0%Z) in
  snd (append_releases r [first; second] []) = Some (ApiError 7) /\
  fetch_releases api = [mkRecord "a" "ua" [] "one" [] "w1"] /\
  ~ (forall rec, In rec (fetch_releases api) -> repo rec <> name r).
Proof.
  intros first second r api.
  split; [reflexivity|]. split; [reflexivity|].
  intro H. apply (H (mkRecord "a" "ua" [] "one" [] "w1")); [left|]; reflexivity.
Qed.

End ReleaseFacts.

(** ** The release list of main *)

Module ListFacts.

(** *** The order of str *)

Lemma str_ltb_irrefl : forall a, str_ltb a a = false.
Proof.
  induction a as [|x a IH]; [reflexivity|]. simpl.
  rewrite Nat.ltb_irrefl, Nat.eqb_refl, IH. reflexivity.
Qed.

Lemma str_ltb_asym : forall a b, str_ltb a b = true -> str_ltb b a = false.
Proof.
  induction a as [|x a IH]; intros [|y b] H; simpl in *; try congruence.
  apply orb_true_iff in H as [H|H].
  - apply Nat.ltb_lt in H.
    replace (code y <? code x) with false by (symmetry; apply Nat.ltb_ge; lia).
    replace (code y =? code x) with false by (symmetry; apply Nat.eqb_neq; lia).
    reflexivity.
  - apply andb_prop in H as [E H]. apply Nat.eqb_eq in E.
    rewrite E, Nat.ltb_irrefl, Nat.eqb_refl. simpl. apply IH, H.
Qed.

(** [a >= b] and [b >= c] give [a >= c]. *)
Lemma str_geb_trans : forall a b c,
  str_ltb a b = false -> str_ltb b c = false -> str_ltb a c = false.
Proof.
  induction a as [|x a IH]; intros [|y b] [|z c] H1 H2; simpl in *;
    try congruence.
  apply orb_false_iff in H1 as [L1 E1], H2 as [L2 E2].
  apply Nat.ltb_ge in L1, L2.
  apply orb_false_iff. split; [apply Nat.ltb_ge; lia|].
  destruct (code x =? code z) eqn:Exz; [|reflexivity]. simpl.
  apply Nat.eqb_eq in Exz.
  assert (Exy : code x = code y) by lia.
  assert (Eyz : code y = code z) by lia.
  rewrite Exy, Nat.eqb_refl in E1. rewrite Eyz, Nat.eqb_refl in E2. simpl in *.
  eapply IH; eauto.
Qed.

(** *** The sort *)

Lemma insert_desc_perm x : forall l, Permutation (x :: l) (insert_desc x l).
Proof.
  induction l as [|y l IH]; simpl; [reflexivity|].
  destruct (str_ltb (published x) (published y)); [|reflexivity].
  rewrite perm_swap. constructor. exact IH.
Qed.

Lemma sort_desc_perm : forall l, Permutation l (sort_desc l).
Proof.
  induction l as [|x l IH]; simpl; [constructor|].
  rewrite <- insert_desc_perm. constructor. exact IH.
Qed.

Lemma insert_desc_sorted x : forall l,
  StronglySorted not_older l -> StronglySorted not_older (insert_desc x l).
Proof.
  induction l as [|y l IH]; intro S; simpl.
  - repeat constructor.
  - inversion S as [|? ? S' F]; subst.
    destruct (str_ltb (published x) (published y)) eqn:E.
    + constructor; [apply IH, S'|].
      apply Forall_forall. intros z Hz.
      apply (Permutation_in _ (Permutation_sym (insert_desc_perm x l))) in Hz.
      destruct Hz as [<-|Hz].
      * apply str_ltb_asym, E.
      * rewrite Forall_forall in F. apply F, Hz.
    + constructor; [exact S|].
      constructor; [exact E|].
      apply Forall_forall. intros z Hz. rewrite Forall_forall in F.
      unfold not_older in *. eapply str_geb_trans; [exact E | apply F, Hz].
Qed.

Lemma sort_desc_sorted : forall l, StronglySorted not_older (sort_desc l).
Proof.
  induction l as [|x l IH]; simpl; [constructor | apply insert_desc_sorted, IH].
Qed.


(** *** The loop over the sorted list *)

Lemma str_eqb_eq a b : str_eqb a b = true <-> a = b.
Proof. unfold str_eqb. destruct (list_eq_dec ascii_dec a b); split; congruence. Qed.

Lemma seen_in l r : seen l r = true <-> In r l.
Proof.
  unfold seen. rewrite existsb_exists. split.
  - intros (x & Hx & E). apply str_eqb_eq in E. subst. exact Hx.
  - intro H. exists r. split; [exact H | apply str_eqb_eq; reflexivity].
Qed.

Lemma seen_not_in l r : seen l r = false <-> ~ In r l.
Proof.
  rewrite <- seen_in. destruct (seen l r); split; intros; congruence.
Qed.

(** A record the loop keeps is the first of its repository, and its
    repository was not seen before. *)
Lemma unique_first : forall l sn x,
  In x (unique sn l) ->
  ~ In (repo x) sn /\
  exists l1 l2, l = l1 ++ x :: l2 /\ forall y, In y l1 -> repo y <> repo x.
Proof.
  induction l as [|z l IH]; intros sn x H; simpl in H; [contradiction|].
  destruct (seen sn (repo z)) eqn:E.
  - destruct (IH sn x H) as (N & l1 & l2 & -> & F).
    split; [exact N|]. exists (z :: l1), l2. split; [reflexivity|].
    intros y [<-|Hy]; [|apply F, Hy].
    intro Ez. apply seen_in in E. rewrite Ez in E. contradiction.
  - destruct H as [<-|H].
    + split; [apply seen_not_in, E|]. exists [], l. split; [reflexivity|].
      intros y [].
    + destruct (IH _ x H) as (N & l1 & l2 & -> & F).
      split; [intro I; apply N; right; exact I|].
      exists (z :: l1), l2. split; [reflexivity|].
      intros y [<-|Hy]; [|apply F, Hy].
      intro Ez. apply N. left. exact Ez.
Qed.

Lemma unique_nodup : forall l sn, NoDup (map repo (unique sn l)).
Proof.
  induction l as [|z l IH]; intro sn; simpl; [constructor|].
  destruct (seen sn (repo z)); [apply IH|].
  simpl. constructor; [|apply IH].
  intro I. apply in_map_iff in I as (x & Ex & Hx).
  apply unique_first in Hx as [N _]. apply N. left. symmetry. exact Ex.
Qed.

Lemma unique_sorted (R : ReleaseRecord -> ReleaseRecord -> Prop) : forall l sn,
  StronglySorted R l -> StronglySorted R (unique sn l).
Proof.
  induction l as [|z l IH]; intros sn S; simpl; [constructor|].
  inversion S as [|? ? S' F]; subst.
  destruct (seen sn (repo z)); [apply IH, S'|].
  constructor; [apply IH, S'|].
  apply Forall_forall. intros x Hx. rewrite Forall_forall in F. apply F.
  apply unique_first in Hx as (_ & l1 & l2 & -> & _).
  apply in_or_app. right. left. reflexivity.
Qed.

(** Records of repositories that are all different and not seen yet are
    all kept. *)
Lemma unique_all : forall l sn,
  NoDup (map repo l) -> (forall x, In x l -> ~ In (repo x) sn) ->
  unique sn l = l.
Proof.
  induction l as [|z l IH]; intros sn N F; simpl; [reflexivity|].
  inversion N as [|? ? Nz N']; subst.
  replace (seen sn (repo z)) with false
    by (symmetry; apply seen_not_in, F; left; reflexivity).
  f_equal. apply IH; [exact N'|].
  intros x Hx [E|I].
  - apply Nz. rewrite E. apply in_map, Hx.
  - apply (F x); [right; exact Hx | exact I].
Qed.

Lemma In_firstn {T} n (l : list T) x : In x (firstn n l) -> In x l.
Proof.
  intro H. rewrite <- (firstn_skipn n l). apply in_or_app. left. exact H.
Qed.

Lemma firstn_sorted {T} (R : T -> T -> Prop) n : forall l,
  StronglySorted R l -> StronglySorted R (firstn n l).
Proof.
  induction n as [|n IH]; intros l S; [constructor|].
  destruct l as [|x l]; [constructor|]. simpl.
  inversion S as [|? ? S' F]; subst. constructor; [apply IH, S'|].
  apply Forall_forall. intros y Hy. rewrite Forall_forall in F.
  apply F. exact (In_firstn _ _ _ Hy).
Qed.


Lemma firstn_nodup {T} n : forall l : list T, NoDup l -> NoDup (firstn n l).
Proof.
  induction n as [|n IH]; intros l N; [constructor|].
  destruct l as [|x l]; [constructor|]. simpl.
  inversion N as [|? ? Nx N']; subst. constructor; [|apply IH, N'].
  intro I. apply Nx. exact (In_firstn _ _ _ I).
Qed.

(** C2.  The records main shows: at most 6; at most one per repository;
    each is a record of the input whose date is not below the date of any
    input record of the same repository; they are in non-increasing order
    of date; of two records of one repository with different dates the
    later one alone is shown, in whichever order they come; and 10 records
    of 10 different repositories give exactly 6. *)
Theorem shown_releases_spec (releases : list ReleaseRecord) :
  let out := shown_releases releases in
  length out <= 6
  /\ NoDup (map repo out)
  /\ (forall r, In r out ->
        In r releases /\
        forall r', In r' releases -> repo r' = repo r ->
                   str_ltb (published r) (published r') = false)
  /\ StronglySorted not_older out
  /\ (forall a b, repo a = repo b -> str_ltb (published b) (published a) = true ->
        shown_releases [a; b] = [a] /\ shown_releases [b; a] = [a])
  /\ (NoDup (map repo releases) -> length releases = 10 -> length out = 6).
Proof.
  intro out. unfold out, shown_releases.
  split; [apply firstn_le_length|].
  split; [rewrite <- firstn_map; apply firstn_nodup, unique_nodup|].
  split.
  { intros r Hr. apply In_firstn in Hr.
    apply unique_first in Hr as (_ & l1 & l2 & E & F).
    pose proof (sort_desc_perm releases) as P.
    pose proof (sort_desc_sorted releases) as S. rewrite E in P, S.
    split.
    - apply (Permutation_in _ (Permutation_sym P)).
      apply in_or_app. right. left. reflexivity.
    - intros r' Hr' Er.
      apply (Permutation_in _ P) in Hr'.
      apply in_app_or in Hr' as [I|[<-|I]].
      + exfalso. exact (F r' I Er).
      + apply str_ltb_irrefl.
      + clear - S I. induction l1 as [|z l1 IH]; simpl in S.
        * inversion S as [|? ? _ Fa]; subst. rewrite Forall_forall in Fa. apply Fa, I.
        * inversion S; subst. apply IH. assumption. }
  split; [apply firstn_sorted, unique_sorted, sort_desc_sorted|].
  split.
  { intros a b Er Lt. pose proof (str_ltb_asym _ _ Lt) as Ge.
    unfold seen. simpl. rewrite Lt, Ge. simpl. unfold seen. simpl.
    rewrite Er. replace (str_eqb (repo b) (repo b)) with true
      by (symmetry; apply str_eqb_eq; reflexivity).
    simpl. split; reflexivity. }
  intros N L.
  rewrite unique_all.
  - rewrite length_firstn, <- (Permutation_length (sort_desc_perm releases)), L.
    reflexivity.
  - apply (Permutation_NoDup (Permutation_map repo (sort_desc_perm releases))), N.
  - intros x _ [].
Qed.


Lemma shown_releases_spec_witness :
  let mk n d := mkRecord (of_string n) [] [] [] (of_string d) [] in
  let releases :=
    [mk "a" "2024-01-05"; mk "b" "2023-12-31"; mk "c" ""; mk "d" "2024-02-01";
     mk "e" "2024-01-05"; mk "f" "2022-07-19"; mk "g" "2024-03-03";
     mk "h" "2021-01-01"; mk "i" "2024-01-06"; mk "j" "2020-10-10"] in
  NoDup (map repo releases) /\ length releases = 10 /\
  shown_releases releases
  = [mk "g" "2024-03-03"; mk "d" "2024-02-01"; mk "i" "2024-01-06";
     mk "a" "2024-01-05"; mk "e" "2024-01-05"; mk "b" "2023-12-31"] /\
  length (shown_releases releases) = 6.
Proof.
  intros mk releases.
  assert (N : NoDup (map repo releases)).
  { repeat (constructor; [simpl; intros H;
      repeat (destruct H as [H|H]; [discriminate H|]); exact H|]). constructor. }
  split; [exact N|]. split; [reflexivity|]. split; [reflexivity|].
  exact (proj2 (proj2 (proj2 (proj2 (proj2 (shown_releases_spec releases))))) N eq_refl).
Defined.

End ListFacts.

(** ** Fallback statistics *)

Module ExtractFacts.
Import Re ReFacts.





Lemma digit_not_comma x : is_digit x = true -> x <> ","%char.
Proof. intros H ->. discriminate H. Qed.

Section Path.
Variable A : Type.
Implicit Types (k : cont A) (c : caps) (s : str).







Lemma run_ws w k c s a :
  forallb is_space w = true ->
  heads (fun x => is_space x = false) s ->
  k c s = Some a ->
  run ws k c (w ++ s) = Some a.
Proof. intros W Hd K. unfold ws. apply run_star_munch; assumption. Qed.

End Path.





(** *** What the number pattern matches *)




(** *** Reading a number *)







(** *** The groups of a match *)








(** *** Writing a number *)









(** *** The lines the pattern matches *)














End ExtractFacts.

(** ** Substitution, then extraction *)

Module RegionFacts.
Import Re ReFacts ChunkFacts ExtractFacts.

Lemma marker_word_plain marker : marker_word marker = true -> marker_plain marker = true.
Proof.
  unfold marker_word, marker_plain. rewrite !forallb_forall.
  intros H a Ha. specialize (H a Ha).
  apply andb_prop in H as [H _]. apply andb_prop in H as [H _]. exact H.
Qed.

Lemma marker_word_no_lt marker : marker_word marker = true -> existsb is_lt marker = false.
Proof.
  induction marker as [|a m IH]; [reflexivity|]. simpl. intro H.
  apply andb_prop in H as [H Hm]. apply andb_prop in H as [_ H].
  unfold is_lt. apply negb_true_iff in H. rewrite H. simpl. apply IH, Hm.
Qed.

Lemma marker_word_no_space marker :
  marker_word marker = true -> heads (fun x => is_space x = false) marker.
Proof.
  destruct marker as [|a m]; [exact (fun _ => I)|]. simpl. intro H.
  apply andb_prop in H as [H _]. apply andb_prop in H as [H _].
  apply andb_prop in H as [_ H]. apply negb_true_iff in H. exact H.
Qed.

Lemma spaces_no_lt w : forallb is_space w = true -> existsb is_lt w = false.
Proof.
  induction w as [|a w IH]; [reflexivity|]. simpl. intro H.
  apply andb_prop in H as [Ha H]. rewrite (IH H), orb_false_r.
  destruct a as [[] [] [] [] [] [] [] []]; try discriminate Ha; reflexivity.
Qed.

(** In a marker of a name without [<] the only [<] is the first character. *)
Lemma marker_one_lt marker word x :
  existsb is_lt marker = false -> existsb is_lt word = false ->
  Matches (cat_all (marker_re marker word)) x ->
  exists t, x = "<"%char :: t /\ existsb is_lt t = false.
Proof.
  intros Hm Hw M.
  apply marker_shape in M as (w1 & w2 & w3 & -> & W1 & W2 & W3).
  exists (of_string "!--" ++ w1 ++ marker ++ w2 ++ word ++ w3 ++ of_string "-->").
  split; [reflexivity|].
  rewrite !existsb_app, Hm, Hw.
  rewrite (spaces_no_lt _ W1), (spaces_no_lt _ W2), (spaces_no_lt _ W3). reflexivity.
Qed.

(** The pattern with the body captured matches the same texts. *)
Lemma body_shape marker x :
  Matches (body_pattern marker) x <-> Matches (chunk_pattern marker) x.
Proof.
  unfold body_pattern, chunk_pattern. rewrite !Matches_cat_all_app.
  split; intros (sm & t & -> & Ms & M); exists sm, t; repeat split; auto;
    simpl in *; apply Matches_cat_inv in M as (b & em & -> & Mb & Me);
    constructor; auto.
  - inversion Mb. assumption.
  - constructor. assumption.
Qed.

(** *** Where [<!--] can start *)

Lemma contains_split p : forall s,
  contains p s = false <-> forall u v, s = u ++ v -> is_prefix p v = false.
Proof.
  induction s as [|a s IH]; simpl.
  - rewrite orb_false_r. split.
    + intros H u v E. symmetry in E. apply app_eq_nil in E as [_ ->]. exact H.
    + intro H. apply (H [] []). reflexivity.
  - rewrite orb_false_iff. split.
    + intros [H1 H2] u v E. destruct u as [|b u].
      * simpl in E. subst v. exact H1.
      * simpl in E. inversion E; subst. apply (proj1 IH H2 u v). reflexivity.
    + intro H. split; [apply (H [] (a :: s)); reflexivity|].
      apply IH. intros u v ->. apply (H (a :: u) v). reflexivity.
Qed.

(** A text without [<!--], put before a [<], has no [<!--] that starts in it. *)
Lemma open_straddle v z :
  v <> [] -> is_prefix (of_string "<!--") v = false ->
  is_prefix (of_string "<!--") (v ++ "<"%char :: z) = false.
Proof.
  intros Hv P.
  destruct v as [|a [|b [|c [|d v]]]]; [congruence| | | |];
    cbn [of_string list_ascii_of_string is_prefix app] in *.
  - destruct (Ascii.eqb "<" a); reflexivity.
  - destruct (Ascii.eqb "<" a), (Ascii.eqb "!" b); reflexivity.
  - destruct (Ascii.eqb "<" a), (Ascii.eqb "!" b), (Ascii.eqb "-" c); reflexivity.
  - exact P.
Qed.

Lemma open_before_nl s :
  is_prefix (of_string "<!--") s = false ->
  is_prefix (of_string "<!--") (s ++ nl) = false.
Proof.
  intro P.
  destruct s as [|a [|b [|c [|d s]]]];
    cbn [of_string list_ascii_of_string is_prefix app nl] in *.
  - reflexivity.
  - destruct (Ascii.eqb "<" a); reflexivity.
  - destruct (Ascii.eqb "<" a), (Ascii.eqb "!" b); reflexivity.
  - destruct (Ascii.eqb "<" a), (Ascii.eqb "!" b), (Ascii.eqb "-" c); reflexivity.
  - exact P.
Qed.

Lemma wrapped_no_open chunk inline :
  contains "<!--" chunk = false -> contains "<!--" (wrapped chunk inline) = false.
Proof.
  intro H. unfold wrapped. destruct inline; [exact H|]. simpl negb. cbv iota.
  assert (G : forall s, contains "<!--" s = false -> contains "<!--" (s ++ nl) = false).
  { induction s as [|a s IH]; intro Hs; [reflexivity|].
    cbn [contains app] in *. apply orb_false_iff in Hs as [H1 H2].
    apply orb_false_iff. split; [|apply IH, H2].
    exact (open_before_nl (a :: s) H1). }
  change (nl ++ chunk ++ nl) with (ascii_of_nat 10 :: (chunk ++ nl)).
  cbn [contains]. rewrite (G chunk H). reflexivity.
Qed.


(** *** The match at a region that replace_chunk has written *)

(** On a marker as replace_chunk writes it, the pattern of the marker
    matches at its first try. *)
Lemma run_marker A marker x word (k : cont A) c s a :
  marker_word marker = true ->
  is_space x = false ->
  k c s = Some a ->
  run (cat_all (marker_re marker (x :: word))) k c
      (of_string "<!--" ++ sp ++ marker ++ sp ++ (x :: word) ++ sp ++ of_string "-->" ++ s)
  = Some a.
Proof.
  intros Hm Hx K. unfold marker_re. cbn [cat_all fold_right].
  rewrite run_cat, run_lit, run_cat.
  assert (Tail : run (Cat ws (Cat (lit (x :: word)) (Cat ws (Cat (lit "-->") Eps)))) k c
                     (sp ++ (x :: word) ++ sp ++ of_string "-->" ++ s) = Some a).
  { rewrite run_cat. apply run_ws; [reflexivity | exact Hx |].
    rewrite run_cat, run_lit, run_cat. apply run_ws; [reflexivity | reflexivity |].
    rewrite run_cat, run_lit. exact K. }
  destruct marker as [|m0 marker].
  - change (sp ++ [] ++ sp ++ (x :: word) ++ sp ++ of_string "-->" ++ s)
      with ((sp ++ sp) ++ (x :: word) ++ sp ++ of_string "-->" ++ s).
    apply run_ws; [reflexivity | exact Hx |].
    rewrite run_cat. change (lit []) with Eps.
    change (run Eps ?k0 c ?s0) with (k0 c s0).
    rewrite run_cat.
    apply (@run_ws A [] _ c ((x :: word) ++ sp ++ of_string "-->" ++ s) a);
      [reflexivity | exact Hx |].
    rewrite run_cat, run_lit, run_cat. apply run_ws; [reflexivity | reflexivity |].
    rewrite run_cat, run_lit. exact K.
  - apply run_ws; [reflexivity | |].
    + apply (marker_word_no_space (m0 :: marker) Hm).
    + rewrite run_cat, run_lit. exact Tail.
Qed.


Lemma replacement_eq marker body rest :
  replacement marker body ++ rest
  = of_string "<!--" ++ sp ++ marker ++ sp ++ of_string "starts" ++ sp ++ of_string "-->"
    ++ body
    ++ of_string "<!--" ++ sp ++ marker ++ sp ++ of_string "ends" ++ sp ++ of_string "-->"
    ++ rest.
Proof. unfold replacement. rewrite <- !app_assoc. reflexivity. Qed.




Lemma replacement_starts marker body rest :
  exists t, replacement marker body ++ rest = "<"%char :: t.
Proof. rewrite replacement_eq. eexists. reflexivity. Qed.

(** Writing the region leaves no earlier place where the pattern matches. *)
Lemma no_earlier_region marker content pre x post body tail :
  marker_word marker = true ->
  content = pre ++ x ++ post ->
  Matches (chunk_pattern marker) x ->
  (forall u y v, occurs_at (chunk_pattern marker) content u y v ->
                 length pre <= length u) ->
  forall u v, pre = u ++ v -> v <> [] ->
    match_here (body_pattern marker) false (v ++ replacement marker body ++ tail) = None.
Proof.
  intros Hm Ec Mx First u v Ep Hv.
  destruct (match_here (body_pattern marker) false (v ++ replacement marker body ++ tail))
    as [[c s']|] eqn:E; [|reflexivity].
  exfalso.
  apply match_here_sound in E as (y & Ey & My & _).
  apply body_shape, chunk_shape in My as (sm & b & em & -> & Ms & Me).
  pose proof (marker_word_no_lt _ Hm) as Nlt.
  destruct (@marker_one_lt marker (of_string "starts") sm Nlt eq_refl Ms) as (t & Esm & Ht).
  assert (V : exists v2, v = sm ++ v2).
  { rewrite <- !app_assoc in Ey. apply app_eq_app in Ey as [l [[E1 E2]|[E1 E2]]].
    - exists l. exact E1.
    - destruct (replacement_starts marker body tail) as [r Er]. rewrite Er in E2.
      destruct l as [|l0 l].
      + exists []. rewrite app_nil_r in E1. rewrite app_nil_r. congruence.
      + exfalso. simpl in E2. inversion E2; subst l0.
        destruct v as [|v0 v]; [congruence|].
        rewrite E1 in Esm. simpl in Esm. inversion Esm; subst.
        rewrite existsb_app in Ht. simpl in Ht. rewrite orb_true_r in Ht. discriminate. }
  destruct V as [v2 ->].
  apply chunk_shape in Mx as (smx & bx & emx & -> & Msx & Mex).
  assert (O : occurs_at (chunk_pattern marker) content u
                (sm ++ (v2 ++ smx ++ bx) ++ emx) post).
  { split.
    - rewrite Ec, Ep, <- !app_assoc. reflexivity.
    - apply chunk_shape. exists sm, (v2 ++ smx ++ bx), emx. auto. }
  apply First in O. rewrite Ep, length_app in O.
  destruct sm; [discriminate Esm | simpl in O; lia].
Qed.




End RegionFacts.

(** ** More on the statistics aggregator *)

Module AggregateFacts.

Lemma sum_repos_total : forall rs a b,
  sum_repos rs a b
  = ((a + total stargazers_count rs)%Z, (b + total forks_count rs)%Z).
Proof.
  unfold total.
  induction rs as [|r rs IH]; intros a b; simpl.
  - f_equal; lia.
  - destruct (fork r); simpl; rewrite IH; [reflexivity|]. f_equal; lia.
Qed.

Lemma total_perm f rs rs' : Permutation rs rs' -> total f rs = total f rs'.
Proof.
  intro P. unfold total.
  induction P as [|r l l' P IH|a b l|l l' l'' P1 IH1 P2 IH2]; simpl.
  - reflexivity.
  - destruct (fork r); simpl; rewrite IH; reflexivity.
  - destruct (fork a), (fork b); simpl; lia.
  - congruence.
Qed.



(** X2.  The record does not depend on the order in which the repositories
    are enumerated, whether the run fails or not. *)
Theorem fetch_github_stats_order u rs rs' e fo current :
  Permutation rs rs' ->
  fetch_github_stats (mkApi u rs e fo) current
  = fetch_github_stats (mkApi u rs' e fo) current.
Proof.
  intro P. unfold fetch_github_stats, stats_try, iteration_end. simpl.
  rewrite !sum_repos_total, (total_perm stargazers_count P), (total_perm forks_count P).
  reflexivity.
Qed.

Lemma fetch_github_stats_order_witness :
  let a := mkRepo "a" "u" None false 5 7 (Ok []) in
  let b := mkRepo "b" "u" None true 100 200 (Ok []) in
  fetch_github_stats (mkApi (Ok tt) [a; b] None (Ok 9%Z)) None
  = fetch_github_stats (mkApi (Ok tt) [b; a] None (Ok 9%Z)) None.
Proof.
  intros a b. apply fetch_github_stats_order. apply perm_swap.
Defined.

(** X3.  Called without a fallback, a run in which anything fails gives
    zero three times. *)
Theorem fetch_github_stats_no_fallback (api : Api) :
  (exists e, get_user api = Raise e)
  \/ (exists e, get_repos_end api = Some e)
  \/ (exists e, user_followers api = Raise e) ->
  fetch_github_stats api None = mkStats 0 0 0.
Proof.
  intro F. unfold fetch_github_stats, stats_try, iteration_end.
  destruct (get_user api) as [u|e0]; simpl; [|reflexivity].
  destruct (get_repos_end api) as [e1|]; simpl; [reflexivity|].
  destruct (user_followers api) as [fo|e2]; simpl; [|reflexivity].
  destruct F as [[e F]|[[e F]|[e F]]]; discriminate.
Qed.

Lemma fetch_github_stats_no_fallback_witness :
  let a := mkRepo "a" "u" None false 5 7 (Ok []) in
  fetch_github_stats (mkApi (Ok tt) [a] None (Raise (ApiError 3))) None = mkStats 0 0 0.
Proof.
  intro a. apply fetch_github_stats_no_fallback.
  right. right. exists (ApiError 3). reflexivity.
Defined.

End AggregateFacts.

(** ** More on the release aggregator *)

Module CollectFacts.
Import ReleaseFacts.

Lemma release_record_fields r rel rec :
  release_record r rel = Ok rec ->
  repo rec = name r /\ repo_url rec = repo_html_url r.
Proof.
  unfold release_record. intro H.
  destruct (release_label r rel); simpl in H; [|discriminate].
  destruct (release_date rel); simpl in H; [|discriminate].
  destruct (html_url rel); simpl in H; [|discriminate].
  inversion H. split; reflexivity.
Qed.

(** What the inner loop adds: records of that repository, one per release
    at most. *)
Lemma append_releases_adds r : forall rels,
  length (fst (append_releases r rels [])) <= length rels /\
  forall rec, In rec (fst (append_releases r rels [])) ->
              repo rec = name r /\ repo_url rec = repo_html_url r.
Proof.
  induction rels as [|rel rels [IHl IHr]]; simpl.
  - split; [lia | intros rec []].
  - destruct (release_record r rel) as [rec0|e] eqn:E; simpl.
    + rewrite append_releases_acc. simpl. split; [lia|].
      intros rec [<-|I]; [exact (release_record_fields r rel E) | apply IHr, I].
    + split; [lia | intros rec []].
Qed.

Lemma visit_repo_adds r :
  length (visit_repo r []) <= (if fork r then 0 else 5) /\
  forall rec, In rec (visit_repo r []) ->
              fork r = false /\ repo rec = name r /\ repo_url rec = repo_html_url r.
Proof.
  unfold visit_repo. destruct (fork r); [split; [simpl; lia | intros rec []]|].
  destruct (get_releases r) as [rels|e]; [|split; [simpl; lia | intros rec []]].
  destruct (append_releases_adds r (firstn 5 rels)) as [L F].
  split.
  - pose proof (firstn_le_length 5 rels). lia.
  - intros rec I. split; [reflexivity | apply F, I].
Qed.

Lemma visit_repos_adds : forall rs,
  length (visit_repos rs []) <= 5 * length (owned rs) /\
  forall rec, In rec (visit_repos rs []) ->
    exists r, In r rs /\ fork r = false /\ repo rec = name r
              /\ repo_url rec = repo_html_url r.
Proof.
  induction rs as [|r rs [IHl IHr]].
  - split; [simpl; lia | intros rec []].
  - rewrite visit_repos_cons. destruct (visit_repo_adds r) as [L F]. split.
    + rewrite length_app. unfold owned in *. simpl filter.
      destruct (fork r); simpl negb; cbv iota; simpl length; lia.
    + intros rec I. apply in_app_or in I as [I|I].
      * exists r. split; [left; reflexivity | apply F, I].
      * destruct (IHr rec I) as (r' & Hr' & H). exists r'. split; [right; exact Hr' | exact H].
Qed.

(** X4.  Whatever the API does, every record [fetch_releases] returns
    carries the name and the address of a repository of the enumeration
    that is not a fork, and there are at most five times as many records
    as there are such repositories. *)
Theorem fetch_releases_records (api : Api) :
  length (fetch_releases api) <= 5 * length (owned (get_repos api)) /\
  forall rec, In rec (fetch_releases api) ->
    exists r, In r (get_repos api) /\ fork r = false /\
              repo rec = name r /\ repo_url rec = repo_html_url r.
Proof.
  unfold fetch_releases.
  destruct (get_user api); [|split; [simpl; lia | intros rec []]].
  destruct (get_repos_end api); [split; [simpl; lia | intros rec []]|].
  apply visit_repos_adds.
Qed.

(** X5.  A failure of the set-up or of the enumeration of the repositories
    empties the result: the records already collected from the
    repositories enumerated before the failure are not returned. *)
Theorem fetch_releases_enumeration_fails (api : Api) :
  (exists e, get_user api = Raise e) \/ (exists e, get_repos_end api = Some e) ->
  fetch_releases api = [].
Proof.
  intros [[e H]|[e H]]; unfold fetch_releases.
  - rewrite H. reflexivity.
  - rewrite H. destruct (get_user api); reflexivity.
Qed.

Lemma fetch_releases_enumeration_fails_witness :
  let rel := mkRelease (Ok (Some (of_string "one"))) (Ok (of_string "v1"))
                       (Ok None) (Ok (of_string "w1")) in
  let r := mkRepo "a" "ua" None false 0 0 (Ok [rel]) in
  visit_repos [r] [] = [mkRecord "a" "ua" [] "one" [] "w1"] /\
  fetch_releases (mkApi (Ok tt) [r] (Some (ApiError 2)) (Ok 0%Z)) = [].
Proof.
  intros rel r. split; [reflexivity|].
  apply fetch_releases_enumeration_fails. right. exists (ApiError 2). reflexivity.
Defined.

End CollectFacts.

(** ** Dates as texts *)

Module DateFacts.







End DateFacts.

(** ** More on the release list of main *)

Module OrderFacts.
Import ListFacts.

Lemma insert_desc_dated d x : forall l,
  dated d (insert_desc x l) = dated d (x :: l).
Proof.
  unfold dated.
  induction l as [|y l IH]; [reflexivity|]. cbn [insert_desc].
  destruct (str_ltb (published x) (published y)) eqn:E; [|reflexivity].
  cbn [filter]. rewrite IH. cbn [filter].
  destruct (str_eqb (published x) d) eqn:Ex, (str_eqb (published y) d) eqn:Ey;
    try reflexivity.
  apply str_eqb_eq in Ex, Ey. rewrite Ex, Ey, str_ltb_irrefl in E. discriminate.
Qed.

(** X7.  The sort is stable: the records that have one and the same date
    come out in the order in which they went in. *)
Theorem sort_desc_stable (d : str) (l : list ReleaseRecord) :
  dated d (sort_desc l) = dated d l.
Proof.
  induction l as [|x l IH]; [reflexivity|].
  cbn [sort_desc]. rewrite insert_desc_dated.
  unfold dated in *. cbn [filter]. rewrite IH. reflexivity.
Qed.

Lemma str_ltb_nil_l s : str_ltb [] s = false -> s = [].
Proof. destruct s; [reflexivity | discriminate]. Qed.

Lemma sorted_after {T} (R : T -> T -> Prop) : forall l1 x l2,
  StronglySorted R (l1 ++ x :: l2) -> Forall (R x) l2.
Proof.
  induction l1 as [|a l1 IH]; intros x l2 S; simpl in S; inversion S; subst; auto.
Qed.

(** X8.  Records without a date come last: in the sorted list, and so in
    the list main shows, nothing that has a date stands after a record
    that has none. *)
Theorem undated_last (l l1 l2 : list ReleaseRecord) (r : ReleaseRecord) :
  sort_desc l = l1 ++ r :: l2 \/ shown_releases l = l1 ++ r :: l2 ->
  published r = [] ->
  forall x, In x l2 -> published x = [].
Proof.
  intros H Hr x Hx.
  assert (S : StronglySorted not_older (l1 ++ r :: l2)).
  { destruct H as [<-|<-]; [apply sort_desc_sorted|].
    unfold shown_releases. apply firstn_sorted, unique_sorted, sort_desc_sorted. }
  apply sorted_after in S. rewrite Forall_forall in S.
  specialize (S x Hx). unfold not_older in S. rewrite Hr in S.
  apply str_ltb_nil_l, S.
Qed.

Lemma undated_last_witness :
  let mk n d := mkRecord (of_string n) [] [] [] (of_string d) [] in
  let l := [mk "a" ""; mk "b" "2024-01-05"; mk "c" ""; mk "d" "2023-01-01"] in
  shown_releases l
  = [mk "b" "2024-01-05"; mk "d" "2023-01-01"] ++ mk "a" "" :: [mk "c" ""] /\
  forall x, In x [mk "c" ""] -> published x = [].
Proof.
  intros mk l. split; [reflexivity|].
  apply (@undated_last l [mk "b" "2024-01-05"; mk "d" "2023-01-01"] [mk "c" ""] (mk "a" ""));
    [right; reflexivity | reflexivity].
Defined.

(** The loop keeps a record for every repository it has not seen. *)
Lemma unique_covers : forall l sn r,
  In r l -> ~ In (repo r) sn ->
  exists r', In r' (unique sn l) /\ repo r' = repo r.
Proof.
  induction l as [|z l IH]; intros sn r I N; [contradiction|].
  cbn [unique]. destruct (seen sn (repo z)) eqn:E.
  - destruct I as [<-|I]; [apply seen_in in E; contradiction|].
    apply IH; assumption.
  - destruct I as [<-|I]; [exists z; split; [left|]; reflexivity|].
    destruct (list_eq_dec ascii_dec (repo r) (repo z)) as [Er|Er].
    + exists z. split; [left; reflexivity | congruence].
    + destruct (IH (repo z :: sn) r I) as (r' & I' & E').
      * intros [H|H]; [congruence | contradiction].
      * exists r'. split; [right; exact I' | exact E'].
Qed.

(** X9.  No repository is lost before the cut: when the records name at
    most six different repositories, every repository of the input has a
    record in the list main shows. *)
Theorem shown_releases_covers (l : list ReleaseRecord) (r : ReleaseRecord) :
  length (repo_names l) <= 6 ->
  In r l ->
  exists r', In r' (shown_releases l) /\ repo r' = repo r.
Proof.
  intros L I. unfold shown_releases.
  assert (Len : length (unique [] (sort_desc l)) <= 6).
  { rewrite <- (length_map repo).
    eapply Nat.le_trans; [|exact L].
    apply NoDup_incl_length; [apply unique_nodup|].
    intros n Hn. unfold repo_names. apply nodup_In.
    apply in_map_iff in Hn as (x & <- & Hx).
    apply unique_first in Hx as (_ & l1 & l2 & E & _).
    apply in_map. apply (Permutation_in _ (Permutation_sym (sort_desc_perm l))).
    rewrite E. apply in_or_app. right. left. reflexivity. }
  rewrite firstn_all2 by exact Len.
  apply unique_covers; [|intros []].
  apply (Permutation_in _ (sort_desc_perm l)), I.
Qed.

Lemma shown_releases_covers_witness :
  let mk n d := mkRecord (of_string n) [] [] [] (of_string d) [] in
  let l := [mk "a" "2024-01-05"; mk "b" "2023-12-31"; mk "a" "2024-02-01"] in
  length (repo_names l) = 2 /\
  exists r', In r' (shown_releases l) /\ repo r' = of_string "b".
Proof.
  intros mk l. split; [reflexivity|].
  apply (@shown_releases_covers l (mk "b" "2023-12-31"));
    [vm_compute; lia | right; left; reflexivity].
Defined.

End OrderFacts.

(** ** More on the release label *)

Module LabelFacts.
Import StrFacts.

Lemma is_prefix_length p : forall s, is_prefix p s = true -> length p <= length s.
Proof.
  induction p as [|x p IH]; intros s H; [simpl; lia|].
  destruct s as [|y s]; [discriminate|]. simpl in H.
  apply andb_prop in H as [_ H]. apply IH in H. simpl. lia.
Qed.

Lemma contains_short p : forall s, length s < length p -> contains p s = false.
Proof.
  induction s as [|a s IH]; intro L; cbn [contains].
  - rewrite orb_false_r. destruct (is_prefix p []) eqn:E; [|reflexivity].
    apply is_prefix_length in E. lia.
  - rewrite IH by (simpl in L; lia). rewrite orb_false_r.
    destruct (is_prefix p (a :: s)) eqn:E; [|reflexivity].
    apply is_prefix_length in E. lia.
Qed.

Lemma removelast_shorter {T} (l : list T) : l <> [] -> length (removelast l) < length l.
Proof.
  intro N. destruct l as [|a l]; [congruence|].
  pose proof (@app_removelast_last T (a :: l) a N) as E.
  apply (f_equal (@length T)) in E. rewrite length_app in E.
  cbn [length] in E. cbn [length]. lia.
Qed.

(** X10.  For a release with a non-empty title and a repository with a
    non-empty name: the label has no blank at either end; when the name
    does not occur in the title the label is the title without the blanks
    around it; and when the title is the name followed by a text in which
    the name does not occur, the label is that text without the blanks
    around it. *)
Theorem release_label_shape (r : Repo) (rel : Release) (t : str) :
  title rel = Ok (Some t) -> t <> [] -> name r <> [] ->
  exists label,
    release_label r rel = Ok label /\
    heads (fun x => is_space x = false) label /\
    heads (fun x => is_space x = false) (rev label) /\
    (contains (name r) t = false -> label = strip t) /\
    (forall v, t = name r ++ v -> contains (name r) v = false -> label = strip v).
Proof.
  intros Ht Nt Nn. unfold release_label. rewrite Ht. simpl.
  destruct t as [|a t]; [congruence|].
  eexists. split; [reflexivity|].
  destruct (strip_spec (py_replace (a :: t) (name r) [])) as (l & rr & _ & _ & _ & H1 & H2).
  split; [exact H1|]. split; [exact H2|]. split.
  - intro C. rewrite py_replace_absent; auto.
  - intros v E C. rewrite E.
    rewrite <- (app_nil_l (name r ++ v)).
    rewrite py_replace_first; [|exact Nn|].
    + simpl. rewrite py_replace_absent; auto.
    + simpl. apply contains_short, removelast_shorter, Nn.
Qed.

Lemma release_label_shape_witness :
  let r := mkRepo "proj" "u" None false 0 0 (Ok []) in
  let rel := mkRelease (Ok (Some (of_string "proj  v1.2 "))) (Ok (of_string "t"))
                       (Ok None) (Ok (of_string "w")) in
  release_label r rel = Ok (of_string "v1.2").
Proof.
  intros r rel.
  destruct (@release_label_shape r rel (of_string "proj  v1.2 ") eq_refl
              ltac:(discriminate) ltac:(discriminate))
    as (label & E & _ & _ & _ & H).
  rewrite E. f_equal. exact (H (of_string "  v1.2 ") eq_refl eq_refl).
Defined.

End LabelFacts.

(** ** More on the fallback statistics *)

Module FallbackFacts.
Import Re ReFacts ExtractFacts.



End FallbackFacts.

(** ** The statistics through main *)

Module CycleFacts.
Import Re ReFacts ChunkFacts ExtractFacts.



















End CycleFacts.

(** ** Substituting twice, and contents that are no template *)

Module AgainFacts.
Import Re ReFacts ChunkFacts ExtractFacts RegionFacts.

(** At a region as replace_chunk writes it, with a body without [<!--],
    the pattern of replace_chunk matches that region and no more. *)
Lemma chunk_here marker body rest :
  marker_word marker = true ->
  contains "<!--" body = false ->
  match_here (chunk_pattern marker) false (replacement marker body ++ rest)
  = Some ([], rest).
Proof.
  intros Hm Hb. unfold match_here, chunk_pattern.
  rewrite run_cat_all_app, replacement_eq.
  apply (@run_marker _ marker "s"%char (of_string "tarts")); [exact Hm | reflexivity |].
  cbn [app cat_all fold_right]. rewrite run_cat.
  apply run_lazy_skip.
  - intros u v c' E Hv.
    unfold marker_re. cbn [cat_all fold_right]. rewrite run_cat.
    apply run_lit_fail.
    apply (open_straddle _ Hv).
    apply (proj1 (contains_split _ _) Hb u v E).
  - apply (@run_marker _ marker "e"%char (of_string "nds")); [exact Hm | reflexivity |].
    reflexivity.
Qed.

Lemma no_earlier_chunk marker content pre x post body tail :
  marker_word marker = true ->
  content = pre ++ x ++ post ->
  Matches (chunk_pattern marker) x ->
  (forall u y v, occurs_at (chunk_pattern marker) content u y v ->
                 length pre <= length u) ->
  forall u v, pre = u ++ v -> v <> [] ->
    match_here (chunk_pattern marker) false (v ++ replacement marker body ++ tail) = None.
Proof.
  intros Hm Ec Mx First u v Ep Hv.
  destruct (match_here (chunk_pattern marker) false (v ++ replacement marker body ++ tail))
    as [[c s']|] eqn:E; [|reflexivity].
  exfalso. apply match_here_sound in E as (y & Ey & My & _).
  apply body_shape in My.
  apply (match_here_complete s') in My. apply My. rewrite <- Ey.
  exact (@no_earlier_region marker content pre x post body tail Hm Ec Mx First u v Ep Hv).
Qed.

Section Twice.
Variables (marker body : str).
Hypothesis Hm : marker_word marker = true.
Hypothesis Hb : contains "<!--" body = false.

Let P := chunk_pattern marker.
Let R := replacement marker body.
Let tpl := map TLit R.
Let sub_all (s : str) : str := sub_loop P tpl (2 * length s + 2) false s.

Lemma sub_all_none s : scan P false [] s = None -> sub_all s = s.
Proof.
  intro E. unfold sub_all. rewrite Nat.add_comm. simpl Nat.add.
  rewrite sub_loop_S, E. reflexivity.
Qed.

Lemma sub_all_some s mt :
  scan P false [] s = Some mt ->
  sub_all s = before mt ++ R ++ sub_all (after mt) /\ length (after mt) < length s.
Proof.
  intro E. unfold sub_all at 1. rewrite Nat.add_comm. simpl Nat.add.
  rewrite sub_loop_S, E. unfold tpl at 1. rewrite expand_lits.
  apply scan_sound in E as (sk & B & S & M & _).
  rewrite (chunk_nonempty M).
  apply chunk_starts in M as [t Et].
  assert (L : length (after mt) < length s).
  { rewrite S, Et, !length_app. simpl. lia. }
  split; [|exact L].
  do 2 f_equal. unfold sub_all. apply sub_loop_fuel; lia.
Qed.

Lemma R_starts : exists t, R = "<"%char :: t.
Proof.
  destruct (replacement_starts marker body []) as [t E].
  unfold R. rewrite app_nil_r in E. eauto.
Qed.

(** Substituting in what a substitution has given changes nothing. *)
Lemma sub_all_twice : forall n s, length s <= n -> sub_all (sub_all s) = sub_all s.
Proof.
  induction n as [|n IH]; intros s L.
  - destruct s; [|simpl in L; lia]. reflexivity.
  - destruct (scan P false [] s) as [mt|] eqn:E.
    2:{ rewrite (sub_all_none _ E). apply sub_all_none, E. }
    destruct (sub_all_some _ E) as [Es La]. rewrite Es.
    pose proof E as E0.
    apply scan_sound in E0 as (sk & B & S & M & _ & First). simpl in B.
    set (T := sub_all (after mt)) in *.
    assert (IHT : sub_all T = T) by (apply IH; lia).
    assert (Sc : scan P false [] (before mt ++ R ++ T)
                 = Some (Match (rev [] ++ before mt)
                               (firstn (length (R ++ T) - length T) (R ++ T)) [] T)).
    { apply scan_at.
      - rewrite B. intros u v Ep Hv.
        exact (@no_earlier_chunk marker s sk (matched mt) (after mt) body T
                 Hm S M (First eq_refl) u v Ep Hv).
      - apply chunk_here; assumption. }
    destruct (sub_all_some _ Sc) as [Es2 _]. rewrite Es2. simpl.
    rewrite IHT. reflexivity.
Qed.
End Twice.

(** X14.  Substituting twice is substituting once: for a region name that
    is plain and has no blank and no [<], and a content without a
    backslash and without [<!--], the document replace_chunk returns is
    returned unchanged when replace_chunk is applied to it again with the
    same name and content, whatever the document was. *)
Theorem replace_chunk_twice (content marker chunk : str) (inline : bool) :
  marker_word marker = true ->
  no_backslash chunk = true ->
  contains "<!--" chunk = false ->
  exists result,
    replace_chunk content marker chunk inline = Returns result /\
    replace_chunk result marker chunk inline = Returns result.
Proof.
  intros Hw Hc Ho.
  pose proof (marker_word_plain _ Hw) as Hm.
  pose proof (replacement_plain marker chunk inline Hm Hc) as Hr.
  pose proof (template_plain 0 _ Hr) as Ht.
  eexists. split; [apply replace_chunk_eq; eassumption|].
  rewrite (replace_chunk_eq _ marker chunk inline Hm Ht). f_equal.
  apply (@sub_all_twice marker (wrapped chunk inline) Hw (wrapped_no_open chunk inline Ho)
           (length content) content). lia.
Qed.

Lemma replace_chunk_twice_witness :
  let content :=
    of_string "a <!-- s starts -->1<!-- s ends --> b <!--s starts -->2<!-- s  ends--> c" in
  let result :=
    of_string "a <!-- s starts -->new<!-- s ends --> b <!-- s starts -->new<!-- s ends --> c" in
  replace_chunk content "s" "new" true = Returns result /\
  replace_chunk result "s" "new" true = Returns result.
Proof.
  intros content result.
  destruct (@replace_chunk_twice content "s" "new" true eq_refl eq_refl eq_refl)
    as (r & E1 & E2).
  assert (Er : r = result).
  { assert (C : replace_chunk content "s" "new" true = Returns result) by reflexivity.
    rewrite C in E1. inversion E1. reflexivity. }
  rewrite Er in *. split; assumption.
Defined.

(** *** Contents that are no template *)

Lemma parse_escape_bad n c rest :
  bad_escape_letter c = true -> parse_escape n (c :: rest) = Raise re_error.
Proof.
  destruct c as [[] [] [] [] [] [] [] []]; intro H; try discriminate H; reflexivity.
Qed.

Lemma parse_template_raises n : forall a fuel s e,
  no_backslash a = true ->
  parse_template n fuel s = Raise e ->
  parse_template n (length a + fuel) (a ++ s) = Raise e.
Proof.
  induction a as [|x a IH]; intros fuel s e N H; [exact H|].
  simpl in N. apply andb_prop in N as [Nx N]. apply negb_true_iff in Nx.
  cbn [length app Nat.add parse_template]. rewrite Nx.
  rewrite (IH fuel s e N H). reflexivity.
Qed.

(** X15.  A content in which the first backslash stands before an ASCII
    letter other than a, b, f, n, r, t, v and g makes replace_chunk raise
    re.error, for every document, with or without the region, and for both
    values of [inline]. *)
Theorem replace_chunk_bad_escape (content marker u v : str) (c : ascii) (inline : bool) :
  marker_plain marker = true ->
  no_backslash u = true ->
  bad_escape_letter c = true ->
  replace_chunk content marker (u ++ "\"%char :: c :: v) inline = Raises re_error.
Proof.
  intros Hm Hu Hc. unfold replace_chunk, sub. rewrite Hm.
  set (chunk := u ++ "\"%char :: c :: v).
  assert (T : exists a rest,
             replacement marker (wrapped chunk inline) = a ++ "\"%char :: c :: rest /\
             no_backslash a = true).
  { pose proof (plain_no_backslash _ Hm) as Nm.
    unfold replacement, wrapped, chunk. destruct inline; simpl negb; cbv iota.
    - exists (of_string "<!-- " ++ marker ++ of_string " starts -->" ++ u).
      eexists. split; [rewrite <- !app_assoc; reflexivity|].
      rewrite !no_backslash_app, Nm, Hu. reflexivity.
    - exists (of_string "<!-- " ++ marker ++ of_string " starts -->" ++ nl ++ u).
      eexists. split; [rewrite <- !app_assoc; reflexivity|].
      rewrite !no_backslash_app, Nm, Hu. reflexivity. }
  destruct T as (a & rest & E & Na).
  unfold template. rewrite E, length_app.
  rewrite (@parse_template_raises 0 a _ _ re_error Na); [reflexivity|].
  cbn [length parse_template]. simpl Nat.eqb. cbv iota.
  rewrite parse_escape_bad by exact Hc. reflexivity.
Qed.

Lemma replace_chunk_bad_escape_witness :
  replace_chunk "no region here" "recent_releases" "tool C:\dir v2" false
  = Raises re_error.
Proof.
  apply (@replace_chunk_bad_escape "no region here" "recent_releases"
           (of_string "tool C:") (of_string "ir v2") "d"%char false);
    reflexivity.
Defined.

End AgainFacts.
